(** * A GraphQL endpoint over a Prisma store: schema, resolvers and request handler

    The development embeds
    - the schema declaration [createGraphQLSchema] (object types, input types,
      argument declarations and every resolver) and
    - the two request handlers of [routes/graphql/index.ts] (with and without
      the depth-limit pass),
    and states the behaviour of the execution pipeline they call into.

    The resolvers are written against the repository-call interface
    ([prisma.<model>.<operation>(<argument>)]); the client that answers the
    calls is a parameter of the interpreter, as [prisma] is a parameter of
    [createGraphQLSchema] in the source. *)

From stdpp Require Import base option list strings gmap.
From Stdlib Require Import QArith.
Local Close Scope Q_scope.
Local Open Scope string_scope.
Local Open Scope list_scope.
Local Open Scope nat_scope.

Set Default Proof Using "Type".
Set Warnings "-register-all".

(* ===================================================================== *)
(** ** JavaScript values *)
(* ===================================================================== *)

(** The values that travel between repository, resolvers and response.
    Numbers are carried as rationals; nothing here computes with them. *)
Inductive value : Type :=
  | VUndefined
  | VNull
  | VBool (b : bool)
  | VNum (q : Q)
  | VStr (s : string)
  | VList (items : list value)
  | VObj (props : list (string * value)).

(** [obj.key] / destructuring [{ key }]: a missing property reads as
    [undefined]; so does a property of a non-object. *)
Fixpoint assoc {A : Type} (k : string) (kvs : list (string * A)) : option A :=
  match kvs with
  | [] => None
  | (k', v) :: rest => if String.eqb k k' then Some v else assoc k rest
  end.

Definition get (k : string) (v : value) : value :=
  match v with
  | VObj props => default VUndefined (assoc k props)
  | _ => VUndefined
  end.

(** [v == null] in JavaScript: [null] or [undefined]. *)
Definition is_absent (v : value) : bool :=
  match v with
  | VUndefined | VNull => true
  | _ => false
  end.

(** What a [catch (error)] clause can observe of the caught value: whether
    [error instanceof Error] holds, and the text [${error.message}] renders
    to. *)
Record js_thrown : Type := Thrown {
  instanceof_Error : bool;
  message : string;
}.

(** [new Error(msg)] *)
Definition Error (msg : string) : js_thrown :=
  {| instanceof_Error := true; message := msg |}.

(** A settled promise. *)
Definition settled (A : Type) : Type := js_thrown + A.

(* ===================================================================== *)
(** ** Repository calls and resolver programs *)
(* ===================================================================== *)

Module Prisma.
Inductive model : Type :=
  | memberType | user | post | profile | subscribersOnAuthors.

Inductive operation : Type :=
  | findMany | findFirst | create | update | delete.
End Prisma.

(** [prisma.<model>.<operation>(<argument>)] *)
Record prisma_call : Type := PrismaCall {
  on_model : Prisma.model;
  on_operation : Prisma.operation;
  argument : value;
}.

(** A resolver body: it returns, throws, or issues a repository call and
    continues with the settled promise. *)
Inductive Prog (A : Type) : Type :=
  | Ret (a : A)
  | Throw (e : js_thrown)
  | Call (c : prisma_call) (k : settled value → Prog A).
Arguments Ret {A} a.
Arguments Throw {A} e.
Arguments Call {A} c k.

Fixpoint bind {A B : Type} (p : Prog A) (f : A → Prog B) : Prog B :=
  match p with
  | Ret a => f a
  | Throw e => Throw e
  | Call c k => Call c (λ r, bind (k r) f)
  end.

(** [try { p } catch (error) { h error }] *)
Fixpoint try_catch {A : Type} (p : Prog A) (h : js_thrown → Prog A) : Prog A :=
  match p with
  | Ret a => Ret a
  | Throw e => h e
  | Call c k => Call c (λ r, try_catch (k r) h)
  end.

(** [await prisma.m.op(arg)] (also: returning the promise to the engine,
    which awaits it). *)
Definition await (m : Prisma.model) (op : Prisma.operation) (arg : value)
    : Prog value :=
  Call (PrismaCall m op arg)
       (λ r, match r with inl e => Throw e | inr v => Ret v end).

(** Issue every call of [cs] (the promises are all created by [map] before
    any of them settles), then hand the settlements over in order. *)
Fixpoint call_all {A : Type} (cs : list prisma_call)
    (k : list (settled value) → Prog A) : Prog A :=
  match cs with
  | [] => k []
  | c :: cs' => Call c (λ r, call_all cs' (λ rs, k (r :: rs)))
  end.

Fixpoint first_rejection (rs : list (settled value)) : option js_thrown :=
  match rs with
  | [] => None
  | inl e :: _ => Some e
  | inr _ :: rs' => first_rejection rs'
  end.

Definition fulfilled (rs : list (settled value)) : list value :=
  omap (λ r, match r with inl _ => None | inr v => Some v end) rs.

(** [Promise.all(promises)]: rejects if one of them rejects (here: with the
    rejection of the first such promise in list order), else fulfils with
    the values in list order. *)
Definition Promise_all (cs : list prisma_call) : Prog value :=
  call_all cs (λ rs,
    match first_rejection rs with
    | Some e => Throw e
    | None => Ret (VList (fulfilled rs))
    end).

(** The client: how one call settles, and the store it leaves. *)
Definition client (W : Type) : Type := prisma_call → W → settled value * W.

(** Running a resolver body against a client; the calls issued are returned
    in issue order. *)
Fixpoint run {W A : Type} (prisma : client W) (p : Prog A) (w : W)
    : settled A * W * list prisma_call :=
  match p with
  | Ret a => (inr a, w, [])
  | Throw e => (inl e, w, [])
  | Call c k =>
      let '(r, w1) := prisma c w in
      let '(res, w2, cs) := run prisma (k r) w1 in
      (res, w2, c :: cs)
  end.

(** How the calls of [cs] settle when issued one after the other from the
    store [w], and the store they leave. *)
Fixpoint answers {W : Type} (prisma : client W) (cs : list prisma_call) (w : W)
    : list (settled value) * W :=
  match cs with
  | [] => ([], w)
  | c :: cs' =>
      let '(r, w1) := prisma c w in
      let '(rs, w2) := answers prisma cs' w1 in
      (r :: rs, w2)
  end.

(* ===================================================================== *)
(** ** Type declarations *)
(* ===================================================================== *)

(** A type reference.  Object types refer to each other by name (the source
    uses a [fields: () => ...] thunk for the cyclic [User] type); the schema
    resolves names through its type map. *)
Inductive gtype : Type :=
  | Named (name : string)
  | GraphQLList (ofType : gtype)
  | GraphQLNonNull (ofType : gtype).

Definition resolver : Type := value → value → Prog value.

Record arg_def : Type := {
  arg_type : gtype;
  defaultValue : option value;
}.

Record field_def : Type := {
  type : gtype;
  args : list (string * arg_def);
  resolve : option resolver;
}.

Inductive type_def : Type :=
  | GraphQLScalarType (name : string)
  | GraphQLEnumType (name : string) (values : list (string * value))
  | GraphQLObjectType (name : string) (fields : list (string * field_def))
  | GraphQLInputObjectType (name : string) (fields : list (string * gtype)).

Definition type_name (t : type_def) : string :=
  match t with
  | GraphQLScalarType n | GraphQLEnumType n _
  | GraphQLObjectType n _ | GraphQLInputObjectType n _ => n
  end.

Record GraphQLSchema : Type := {
  query : string;
  mutation : option string;
  typeMap : gmap string type_def;
}.

(** [new GraphQLSchema({ query, mutation })] with the types reachable from
    the two roots. *)
Definition new_GraphQLSchema (q : type_def) (m : option type_def)
    (reachable : list type_def) : GraphQLSchema :=
  {| query := type_name q;
     mutation := type_name <$> m;
     typeMap := list_to_map ((λ t, (type_name t, t)) <$> reachable) |}.

(** [{ type: T }] *)
Definition plain (t : gtype) : field_def :=
  {| type := t; args := []; resolve := None |}.
(** [{ type: T, resolve: f }] *)
Definition resolved (t : gtype) (f : resolver) : field_def :=
  {| type := t; args := []; resolve := Some f |}.
(** [{ type: T, args: a, resolve: f }] *)
Definition with_args (t : gtype) (a : list (string * gtype)) (f : resolver)
    : field_def :=
  {| type := t;
     args := (λ '(n, ty), (n, {| arg_type := ty; defaultValue := None |})) <$> a;
     resolve := Some f |}.

(** JavaScript object literals. *)
Definition where_ (v : value) : value := VObj [("where", v)].
Definition data_ (v : value) : value := VObj [("data", v)].

(* ===================================================================== *)
(** ** The schema of the source *)
(* ===================================================================== *)

Definition GraphQLBoolean : type_def := GraphQLScalarType "Boolean".
Definition GraphQLFloat : type_def := GraphQLScalarType "Float".
Definition GraphQLInt : type_def := GraphQLScalarType "Int".
Definition GraphQLString : type_def := GraphQLScalarType "String".
(** [./types/uuid.js] is used only as a scalar type here. *)
Definition UUIDType : type_def := GraphQLScalarType "UUID".

(** A reference to a declared type. *)
Definition ref (t : type_def) : gtype := Named (type_name t).
Definition nonNull (t : type_def) : gtype := GraphQLNonNull (ref t).
(** [new GraphQLNonNull(new GraphQLList(new GraphQLNonNull(T)))] *)
Definition nonNullListOf (name : string) : gtype :=
  GraphQLNonNull (GraphQLList (GraphQLNonNull (Named name))).

Definition MemberTypeId : type_def :=
  GraphQLEnumType "MemberTypeId"
    [("BASIC", VStr "BASIC"); ("BUSINESS", VStr "BUSINESS")].

Definition MemberType : type_def :=
  GraphQLObjectType "MemberType"
    [("id", plain (nonNull MemberTypeId));
     ("discount", plain (nonNull GraphQLFloat));
     ("postsLimitPerMonth", plain (nonNull GraphQLInt))].

Definition Post : type_def :=
  GraphQLObjectType "Post"
    [("id", plain (nonNull UUIDType));
     ("title", plain (nonNull GraphQLString));
     ("content", plain (nonNull GraphQLString))].

Definition Profile : type_def :=
  GraphQLObjectType "Profile"
    [("id", plain (nonNull UUIDType));
     ("isMale", plain (nonNull GraphQLBoolean));
     ("yearOfBirth", plain (nonNull GraphQLInt));
     ("memberType",
      resolved (nonNull MemberType) (λ profile _,
        await Prisma.memberType Prisma.findFirst
          (where_ (VObj [("id", get "memberTypeId" profile)]))))].

(** [subscribes.map(({ key }) => prisma.user.findFirst({ where: { id: key } }))] *)
Definition counterpart_lookups (key : string) (subscribes : list value)
    : list prisma_call :=
  (λ edge, PrismaCall Prisma.user Prisma.findFirst
             (where_ (VObj [("id", get key edge)]))) <$> subscribes.

(** The two subscription resolvers differ in the edge end they filter on
    and the edge end they look up. *)
Definition subscription_resolver (filter_key lookup_key : string) : resolver :=
  λ user _,
    bind (await Prisma.subscribersOnAuthors Prisma.findMany
            (where_ (VObj [(filter_key, get "id" user)])))
         (λ subscribes,
            match subscribes with
            | VList edges => Promise_all (counterpart_lookups lookup_key edges)
            | _ => Throw (Error "subscribes.map is not a function")
            end).

Definition User : type_def :=
  GraphQLObjectType "User"
    [("id", plain (nonNull UUIDType));
     ("name", plain (nonNull GraphQLString));
     ("balance", plain (nonNull GraphQLFloat));
     ("profile",
      resolved (Named "Profile") (λ user _,
        await Prisma.profile Prisma.findFirst
          (where_ (VObj [("userId", get "id" user)]))));
     ("posts",
      resolved (nonNullListOf "Post") (λ user _,
        await Prisma.post Prisma.findMany
          (where_ (VObj [("authorId", get "id" user)]))));
     ("userSubscribedTo",
      resolved (nonNullListOf "User")
        (subscription_resolver "subscriberId" "authorId"));
     ("subscribedToUser",
      resolved (nonNullListOf "User")
        (subscription_resolver "authorId" "subscriberId"))].

(** The [try { return await prisma.m.findFirst({ where: { id } }) } catch]
    body of the four single-entity query fields. *)
Definition fetch_by_id (m : Prisma.model) (what : string) : resolver :=
  λ _ args,
    try_catch
      (await m Prisma.findFirst (where_ (VObj [("id", get "id" args)])))
      (λ error,
         if instanceof_Error error
         then Throw (Error ("Error fetching " +:+ what +:+ ": " +:+ message error))
         else Throw (Error ("Unknown error fetching " +:+ what))).

Definition RootQueryType : type_def :=
  GraphQLObjectType "RootQueryType"
    [("memberTypes",
      resolved (nonNullListOf "MemberType") (λ _ _,
        await Prisma.memberType Prisma.findMany VUndefined));
     ("memberType",
      with_args (ref MemberType) [("id", nonNull MemberTypeId)]
        (fetch_by_id Prisma.memberType "memberType"));
     ("users",
      resolved (nonNullListOf "User") (λ _ _,
        await Prisma.user Prisma.findMany VUndefined));
     ("user",
      with_args (Named "User") [("id", nonNull UUIDType)]
        (fetch_by_id Prisma.user "user"));
     ("posts",
      resolved (nonNullListOf "Post") (λ _ _,
        await Prisma.post Prisma.findMany VUndefined));
     ("post",
      with_args (ref Post) [("id", nonNull UUIDType)]
        (fetch_by_id Prisma.post "post"));
     ("profiles",
      resolved (nonNullListOf "Profile") (λ _ _,
        await Prisma.profile Prisma.findMany VUndefined));
     ("profile",
      with_args (ref Profile) [("id", nonNull UUIDType)]
        (fetch_by_id Prisma.profile "profile"))].

Definition createInputType (name : string) (fields : list (string * gtype))
    : type_def :=
  GraphQLInputObjectType name fields.

Definition changePostFields : list (string * gtype) :=
  [("title", ref GraphQLString); ("content", ref GraphQLString)].

Definition changeProfileFields : list (string * gtype) :=
  [("isMale", ref GraphQLBoolean);
   ("yearOfBirth", ref GraphQLInt);
   ("memberTypeId", ref MemberTypeId)].

Definition changeUserFields : list (string * gtype) :=
  [("name", ref GraphQLString); ("balance", ref GraphQLFloat)].

Definition createPostFields : list (string * gtype) :=
  [("title", nonNull GraphQLString);
   ("content", nonNull GraphQLString);
   ("authorId", nonNull UUIDType)].

Definition createProfileFields : list (string * gtype) :=
  [("isMale", nonNull GraphQLBoolean);
   ("yearOfBirth", nonNull GraphQLInt);
   ("memberTypeId", nonNull MemberTypeId);
   ("userId", nonNull UUIDType)].

Definition createUserFields : list (string * gtype) :=
  [("name", nonNull GraphQLString); ("balance", nonNull GraphQLFloat)].

Definition ChangePostInput := createInputType "ChangePostInput" changePostFields.
Definition ChangeProfileInput :=
  createInputType "ChangeProfileInput" changeProfileFields.
Definition ChangeUserInput := createInputType "ChangeUserInput" changeUserFields.
Definition CreatePostInput := createInputType "CreatePostInput" createPostFields.
Definition CreateProfileInput :=
  createInputType "CreateProfileInput" createProfileFields.
Definition CreateUserInput := createInputType "CreateUserInput" createUserFields.

(** [catch (error) { throw new Error(`<prefix>: ${error.message}`) }] *)
Definition rethrow (prefix : string) (error : js_thrown) : Prog value :=
  Throw (Error (prefix +:+ ": " +:+ message error)).

(** [try { return await prisma.m.create({ data: dto }) } catch ...] *)
Definition create_resolver (m : Prisma.model) (prefix : string) : resolver :=
  λ _ args,
    try_catch (await m Prisma.create (data_ (get "dto" args)))
              (rethrow prefix).

(** [try { return await prisma.m.update({ where: { id }, data: dto }) } catch ...] *)
Definition change_resolver (m : Prisma.model) (prefix : string) : resolver :=
  λ _ args,
    try_catch
      (await m Prisma.update
         (VObj [("where", VObj [("id", get "id" args)]);
                ("data", get "dto" args)]))
      (rethrow prefix).

(** [try { await prisma.m.delete({ where: { id } }); return done } catch ...] *)
Definition delete_resolver (m : Prisma.model) (done prefix : string) : resolver :=
  λ _ args,
    try_catch
      (bind (await m Prisma.delete (where_ (VObj [("id", get "id" args)])))
            (λ _, Ret (VStr done)))
      (rethrow prefix).

Definition subscribeTo_resolve : resolver :=
  λ _ args,
    try_catch
      (bind (await Prisma.subscribersOnAuthors Prisma.create
               (data_ (VObj [("subscriberId", get "userId" args);
                             ("authorId", get "authorId" args)])))
            (λ _, Ret (VStr "Subscribed")))
      (rethrow "Failed to subscribe").

Definition unsubscribeFrom_resolve : resolver :=
  λ _ args,
    try_catch
      (bind (await Prisma.subscribersOnAuthors Prisma.delete
               (where_ (VObj [("subscriberId_authorId",
                               VObj [("subscriberId", get "userId" args);
                                     ("authorId", get "authorId" args)])])))
            (λ _, Ret (VStr "Unsubscribed")))
      (rethrow "Failed to unsubscribe").

Definition Mutations : type_def :=
  GraphQLObjectType "Mutations"
    [("createUser",
      with_args (nonNull User) [("dto", nonNull CreateUserInput)]
        (create_resolver Prisma.user "Failed to create user"));
     ("createProfile",
      with_args (nonNull Profile) [("dto", ref CreateProfileInput)]
        (create_resolver Prisma.profile "Failed to create profile"));
     ("createPost",
      with_args (nonNull Post) [("dto", nonNull CreatePostInput)]
        (create_resolver Prisma.post "Failed to create post"));
     ("changePost",
      with_args (nonNull Post)
        [("id", nonNull UUIDType); ("dto", nonNull ChangePostInput)]
        (change_resolver Prisma.post "Failed to update post"));
     ("changeProfile",
      with_args (nonNull Profile)
        [("id", nonNull UUIDType); ("dto", nonNull ChangeProfileInput)]
        (change_resolver Prisma.profile "Failed to update profile"));
     ("changeUser",
      with_args (nonNull User)
        [("id", nonNull UUIDType); ("dto", nonNull ChangeUserInput)]
        (change_resolver Prisma.user "Failed to update user"));
     ("deleteUser",
      with_args (nonNull GraphQLString) [("id", nonNull UUIDType)]
        (delete_resolver Prisma.user "User deleted" "Failed to delete user"));
     ("deletePost",
      with_args (nonNull GraphQLString) [("id", nonNull UUIDType)]
        (delete_resolver Prisma.post "Post deleted" "Failed to delete post"));
     ("deleteProfile",
      with_args (nonNull GraphQLString) [("id", nonNull UUIDType)]
        (delete_resolver Prisma.profile "Profile deleted"
           "Failed to delete profile"));
     ("subscribeTo",
      with_args (nonNull GraphQLString)
        [("userId", nonNull UUIDType); ("authorId", nonNull UUIDType)]
        subscribeTo_resolve);
     ("unsubscribeFrom",
      with_args (nonNull GraphQLString)
        [("userId", nonNull UUIDType); ("authorId", nonNull UUIDType)]
        unsubscribeFrom_resolve)].

Definition scalars : list type_def :=
  [GraphQLBoolean; GraphQLFloat; GraphQLInt; GraphQLString; UUIDType].

Definition output_types : list type_def :=
  [MemberTypeId; MemberType; Post; Profile; User; RootQueryType].

Definition input_types : list type_def :=
  [ChangePostInput; ChangeProfileInput; ChangeUserInput;
   CreatePostInput; CreateProfileInput; CreateUserInput].

(** The schema with both roots. *)
Definition createGraphQLSchema : GraphQLSchema :=
  new_GraphQLSchema RootQueryType (Some Mutations)
    (scalars ++ output_types ++ input_types ++ [Mutations]).

(** The second schema file of the repository declares the same types and
    query root, and no mutation root. *)
Module QueryOnly.
Definition createGraphQLSchema : GraphQLSchema :=
  new_GraphQLSchema RootQueryType None (scalars ++ output_types).
End QueryOnly.

(* ===================================================================== *)
(** ** Documents, errors and responses *)
(* ===================================================================== *)

(** An argument as written in the document: a literal or [$name]. *)
Inductive arg_value : Type :=
  | Lit (v : value)
  | Var (name : string).

(** A selection node: [alias: name(arguments) { selectionSet }]. *)
Inductive selection : Type :=
  | Field (alias : option string) (name : string)
          (arguments : list (string * arg_value))
          (selectionSet : list selection).

Inductive operation_kind : Type := OpQuery | OpMutation.

Record document : Type := {
  operation : operation_kind;
  selections : list selection;
}.

(** The output key of a field: its alias if given, else its name. *)
Definition response_key (s : selection) : string :=
  match s with Field alias name _ _ => default name alias end.

Inductive segment : Type :=
  | Key (k : string)
  | Index (i : nat).

Inductive error_kind : Type :=
  | SyntaxError
  | ValidationError
  | ResolutionError.

Record GraphQLError : Type := {
  kind : error_kind;
  text : string;
  path : list segment;
}.

(** [{ data?, errors? }]; an empty [errors] stands for the absent key. *)
Record response : Type := {
  data : option value;
  errors : list GraphQLError;
}.

(** [{ query: string, variables?: object }], parametric in the text type. *)
Record request (Source : Type) : Type := {
  body_query : Source;
  body_variables : list (string * value);
}.
Arguments body_query {Source} r.
Arguments body_variables {Source} r.

(* ===================================================================== *)
(** ** Validation *)
(* ===================================================================== *)

Definition validation_rule : Type := GraphQLSchema → document → list GraphQLError.

Definition invalid (msg : string) : GraphQLError :=
  {| kind := ValidationError; text := msg; path := [] |}.

(** Modelled from the spec: the library's [validate] is not part of the
    repository; it runs the rules it is given over the document and
    returns the errors they report.  The handler passes [[depthLimit(limit)]]
    as the rules of its own pass. *)
Definition validate (schema : GraphQLSchema) (doc : document)
    (rules : list validation_rule) : list GraphQLError :=
  rule ← rules; rule schema doc.

(** Nesting depth of a selection: a field without a selection set is at
    depth 0 and each enclosing selection set adds one, so the fields selected
    on the operation root are measured from level 0. *)
Fixpoint selection_depth (s : selection) : nat :=
  match s with
  | Field _ _ _ [] => 0
  | Field _ _ _ subs =>
      S (foldr (λ sub d, Nat.max (selection_depth sub) d) 0 subs)
  end.

Definition document_depth (doc : document) : nat :=
  foldr (λ s d, Nat.max (selection_depth s) d) 0 (selections doc).

(** Modelled from the spec: the depth-limit rule (package
    [graphql-depth-limit], not part of the repository) computes the maximum
    nesting depth of the selection tree and fails the whole operation with a
    single aggregated validation error when it exceeds the bound. *)
Definition depthLimit (maxDepth : nat) : validation_rule :=
  λ _ doc,
    if decide (maxDepth < document_depth doc)
    then [invalid "operation exceeds maximum operation depth"]
    else [].

Definition lookup_field (schema : GraphQLSchema) (parent field : string)
    : option field_def :=
  match typeMap schema !! parent with
  | Some (GraphQLObjectType _ fields) => assoc field fields
  | _ => None
  end.

(** The named type under the list and non-null wrappers. *)
Fixpoint named_type (t : gtype) : string :=
  match t with
  | Named n => n
  | GraphQLList t' | GraphQLNonNull t' => named_type t'
  end.

Definition is_nonNull (t : gtype) : bool :=
  match t with GraphQLNonNull _ => true | _ => false end.

Section Validation.
(** Which values a scalar type accepts is the scalar's own business (the
    library's built-in scalars, and [UUIDType] of [./types/uuid.js]). *)
Variable scalar_accepts : string → value → bool.
Variable schema : GraphQLSchema.

(** "argument types match": a literal against a declared input type. *)
Fixpoint value_has_type (v : value) (t : gtype) {struct v} : bool :=
  (fix against (t : gtype) : bool :=
     match t with
     | GraphQLNonNull t' => negb (is_absent v) && against t'
     | GraphQLList t' =>
         match v with
         | VList items => forallb (λ item, value_has_type item t') items
         | _ => is_absent v
         end
     | Named n =>
         is_absent v ||
         match typeMap schema !! n with
         | Some (GraphQLScalarType s) => scalar_accepts s v
         | Some (GraphQLEnumType _ values) =>
             match v with
             | VStr s => bool_decide (is_Some (assoc s values))
             | _ => false
             end
         | Some (GraphQLInputObjectType _ fields) =>
             match v with
             | VObj props =>
                 forallb (λ kv, match assoc kv.1 fields with
                                | Some ft => value_has_type kv.2 ft
                                | None => false
                                end) props
                 && forallb (λ '(fname, ft),
                               negb (is_nonNull ft)
                               || bool_decide (is_Some (assoc fname props)))
                            fields
             | _ => false
             end
         | _ => false
         end
     end) t.

(** Errors of the arguments supplied to one field. *)
Definition check_arguments (field : string) (defs : list (string * arg_def))
    (supplied : list (string * arg_value)) : list GraphQLError :=
  ('(name, a) ← supplied;
     match assoc name defs, a with
     | None, _ => [invalid ("Unknown argument " +:+ name +:+ " on field " +:+ field)]
     | Some d, Lit v =>
         if value_has_type v (arg_type d) then []
         else [invalid ("Argument " +:+ name +:+ " of field " +:+ field
                        +:+ " has a value of the wrong type")]
     | Some _, Var _ => []
     end)
  ++
  ('(name, d) ← defs;
     if is_nonNull (arg_type d) && bool_decide (defaultValue d = None)
        && bool_decide (assoc name supplied = None)
     then [invalid ("Field " +:+ field +:+ " argument " +:+ name
                    +:+ " is required, but it was not provided")]
     else []).

(** Errors of one selection under a parent type: the field exists, its
    arguments are right, a leaf has no selection set and an object field
    has a non-empty one; then the same for the children. *)
Fixpoint check_selection (parent : string) (s : selection)
    : list GraphQLError :=
  match s with
  | Field _ name arguments subs =>
      match lookup_field schema parent name with
      | None => [invalid ("Cannot query field " +:+ name +:+ " on type " +:+ parent)]
      | Some fd =>
          let inner := named_type (type fd) in
          check_arguments name (args fd) arguments
          ++ match typeMap schema !! inner, subs with
             | Some (GraphQLObjectType _ _), [] =>
                 [invalid ("Field " +:+ name +:+ " must have a selection of subfields")]
             | Some (GraphQLObjectType _ _), _ =>
                 sub ← subs; check_selection inner sub
             | _, [] => []
             | _, _ =>
                 [invalid ("Field " +:+ name +:+ " must not have a selection")]
             end
      end
  end.
End Validation.

(** The root type an operation runs against. *)
Definition root_type (schema : GraphQLSchema) (k : operation_kind)
    : option string :=
  match k with
  | OpQuery => Some (query schema)
  | OpMutation => mutation schema
  end.

(** Modelled from the spec: the structural pass of the library ("argument
    types match, selected fields exist on their parent type, required
    arguments present", and the selection-set shape of the data model). *)
Definition structural (scalar_accepts : string → value → bool)
    : validation_rule :=
  λ schema doc,
    match root_type schema (operation doc) with
    | None => [invalid "Schema is not configured to execute this operation"]
    | Some root =>
        s ← selections doc; check_selection scalar_accepts schema root s
    end.

Definition specifiedRules (scalar_accepts : string → value → bool)
    : list validation_rule :=
  [structural scalar_accepts].

(* ===================================================================== *)
(** ** The execution engine *)
(* ===================================================================== *)

(** What an instrumented run observes: a field's resolver is invoked, the
    resolver issues a repository call, the field (resolver and the whole
    subtree under it) has settled. *)
Inductive event : Type :=
  | Started (p : list segment)
  | Called (p : list segment) (c : prisma_call)
  | Settled (p : list segment).

Definition event_path (e : event) : list segment :=
  match e with Started p | Called p _ | Settled p => p end.

(** The state of one request: the store, the field errors so far and the
    observed events, oldest first. *)
Record exec_state (W : Type) : Type := {
  world : W;
  failures : list GraphQLError;
  trace : list event;
}.
Arguments world {W} _.
Arguments failures {W} _.
Arguments trace {W} _.

Definition record_events {W} (evs : list event) (st : exec_state W)
    : exec_state W :=
  {| world := world st; failures := failures st; trace := trace st ++ evs |}.

Definition record_failure {W} (e : GraphQLError) (st : exec_state W)
    : exec_state W :=
  {| world := world st; failures := failures st ++ [e]; trace := trace st |}.

Definition set_world {W} (w : W) (st : exec_state W) : exec_state W :=
  {| world := w; failures := failures st; trace := trace st |}.

(** The result of completing one position of the result tree: a result, or
    a failure travelling up to the nearest nullable position. *)
Inductive completion (A : Type) : Type :=
  | Done (a : A)
  | Bubble (e : GraphQLError).
Arguments Done {A} a.
Arguments Bubble {A} e.

Definition field_error (msg : string) (p : list segment) : GraphQLError :=
  {| kind := ResolutionError; text := msg; path := p |}.

Definition null_violation (p : list segment) : GraphQLError :=
  field_error "Cannot return null for non-nullable field" p.

(** Modelled from the spec: the execution engine (the library's executor is
    not part of the repository).  §4.4: resolve each selected field with its
    bound resolver; a failure is recorded as a field error at the field's
    path; a failed or absent non-null position passes the failure up to the
    nearest nullable position, which becomes [null]; objects recurse into
    their selection set with the resolved value as parent; lists complete
    element by element, keeping the order; the output key is the alias if
    given.  Sibling fields and list elements are run in document order, one
    of the schedules the spec allows for query fields and the one it
    prescribes for mutation fields. *)
Section Engine.
Context {W : Type}.
Variable prisma : client W.
(** Leaf serialisation belongs to the scalar and enum types. *)
Variable serialize : type_def → value → settled value.
Variable schema : GraphQLSchema.
Variable variableValues : list (string * value).

Abbreviation state := (exec_state W).

(** A nullable position absorbs a travelling failure: it becomes [null]
    and the error joins the error list. *)
Definition absorb (t : gtype) (r : completion value * state)
    : completion value * state :=
  match r with
  | (Bubble e, st) =>
      if is_nonNull t then (Bubble e, st)
      else (Done VNull, record_failure e st)
  | done => done
  end.

(** §4.4 step 2: what the document, the variables or the default provide
    for a declared argument. *)
Definition provided (supplied : list (string * arg_value)) (name : string)
    (d : arg_def) : option value :=
  match assoc name supplied with
  | Some (Lit v) => Some v
  | Some (Var x) =>
      match assoc x variableValues with
      | Some v => Some v
      | None => defaultValue d
      end
  | None => defaultValue d
  end.

Definition missing (supplied : list (string * arg_value))
    (def : string * arg_def) : bool :=
  is_nonNull (arg_type def.2)
  && from_option is_absent true (provided supplied def.1 def.2).

(** The argument object handed to the resolver, or [MissingArgument]. *)
Definition argument_values (field : string) (defs : list (string * arg_def))
    (supplied : list (string * arg_value)) : settled value :=
  match filter (λ def, missing supplied def = true) defs with
  | (name, _) :: _ =>
      inl (Error ("MissingArgument: " +:+ name +:+ " of field " +:+ field))
  | [] =>
      inr (VObj (omap (λ '(name, d), (λ v, (name, v)) <$> provided supplied name d)
                      defs))
  end.

(** §4.2: the default resolver reads the property named like the field. *)
Definition resolver_of (name : string) (fd : field_def) : resolver :=
  match resolve fd with
  | Some f => f
  | None => λ parent _, Ret (get name parent)
  end.

Section Items.
Variable complete_item : value → list segment → state → completion value * state.

(** §4.4 step 5: the elements of a list, each its own position, in the
    order of the list. *)
Fixpoint complete_items (items : list value) (i : nat) (p : list segment)
    (st : state) : completion (list value) * state :=
  match items with
  | [] => (Done [], st)
  | item :: rest =>
      match complete_item item (p ++ [Index i]) st with
      | (Bubble e, st1) => (Bubble e, st1)
      | (Done v, st1) =>
          match complete_items rest (S i) p st1 with
          | (Done vs, st2) => (Done (v :: vs), st2)
          | (Bubble e, st2) => (Bubble e, st2)
          end
      end
  end.
End Items.

Section Complete.
(** How the selection set of the field being completed runs against an
    object type and the resolved value. *)
Variable run_selection_set :
  string → value → list segment → state → completion value * state.

(** §4.4 steps 3 to 5: completing a resolved value against its declared
    type. *)
Fixpoint complete (t : gtype) (v : value) (p : list segment) (st : state)
    : completion value * state :=
  match t with
  | GraphQLNonNull t' =>
      match complete t' v p st with
      | (Done r, st1) =>
          if is_absent r then (Bubble (null_violation p), st1)
          else (Done r, st1)
      | bubble => bubble
      end
  | GraphQLList t' =>
      if is_absent v then (Done VNull, st)
      else match v with
           | VList items =>
               match complete_items (λ item q s, absorb t' (complete t' item q s))
                                    items 0 p st with
               | (Done vs, st1) => (Done (VList vs), st1)
               | (Bubble e, st1) => (Bubble e, st1)
               end
           | _ => (Bubble (field_error "Expected Iterable" p), st)
           end
  | Named n =>
      if is_absent v then (Done VNull, st)
      else match typeMap schema !! n with
           | Some (GraphQLObjectType _ _) => run_selection_set n v p st
           | Some leaf =>
               match serialize leaf v with
               | inl e => (Bubble (field_error (message e) p), st)
               | inr r => (Done r, st)
               end
           | None => (Bubble (field_error ("Unknown type " +:+ n) p), st)
           end
  end.
End Complete.

Section Fields.
Variable exec_one :
  selection → string → value → list segment → state → completion value * state.

(** The fields of a selection set, in document order; the entries keep
    that order. *)
Fixpoint exec_fields (sels : list selection) (parent_type : string)
    (parent : value) (p : list segment) (st : state)
    : completion (list (string * value)) * state :=
  match sels with
  | [] => (Done [], st)
  | s :: rest =>
      match exec_one s parent_type parent p st with
      | (Bubble e, st1) => (Bubble e, st1)
      | (Done v, st1) =>
          match exec_fields rest parent_type parent p st1 with
          | (Done kvs, st2) => (Done ((response_key s, v) :: kvs), st2)
          | (Bubble e, st2) => (Bubble e, st2)
          end
      end
  end.

Definition exec_object (sels : list selection) (parent_type : string)
    (parent : value) (p : list segment) (st : state)
    : completion value * state :=
  match exec_fields sels parent_type parent p st with
  | (Done kvs, st1) => (Done (VObj kvs), st1)
  | (Bubble e, st1) => (Bubble e, st1)
  end.
End Fields.

(** The resolver of a field is invoked and its value completed. *)
Definition resolve_and_complete
    (subselection : string → value → list segment → state → completion value * state)
    (name : string) (fd : field_def) (arguments : list (string * arg_value))
    (parent : value) (here : list segment) (st : state)
    : completion value * state :=
  match argument_values name (args fd) arguments with
  | inl e => (Bubble (field_error (message e) here), st)
  | inr a =>
      let st0 := record_events [Started here] st in
      let '(r, w, calls) := run prisma (resolver_of name fd parent a) (world st0) in
      let st1 := record_events (Called here <$> calls) (set_world w st0) in
      match r with
      | inl e => (Bubble (field_error (message e) here), st1)
      | inr v => complete subselection (type fd) v here st1
      end
  end.

(** One field of a selection set: a position named by its response key. *)
Fixpoint exec_field (s : selection) (parent_type : string) (parent : value)
    (p : list segment) (st : state) {struct s} : completion value * state :=
  match s with
  | Field alias name arguments subs =>
      let here := p ++ [Key (default name alias)] in
      match lookup_field schema parent_type name with
      | None => (Done VUndefined, st)
      | Some fd =>
          let r := absorb (type fd)
                     (resolve_and_complete (exec_object exec_field subs)
                        name fd arguments parent here st) in
          (r.1, record_events [Settled here] r.2)
      end
  end.

Definition initial (w : W) : state :=
  {| world := w; failures := []; trace := [] |}.

(** §4.4 step 1 and step 7: the root fields, and the assembled result.  A
    failure that no nullable position absorbed makes the whole payload
    [null]. *)
Definition execute (doc : document) (w : W) : response * W * list event :=
  match root_type schema (operation doc) with
  | None =>
      ({| data := Some VNull;
          errors := [field_error "Schema is not configured to execute this operation" []] |},
       w, [])
  | Some root =>
      match exec_object exec_field (selections doc) root VUndefined [] (initial w) with
      | (Done v, st) =>
          ({| data := Some v; errors := failures st |}, world st, trace st)
      | (Bubble e, st) =>
          ({| data := Some VNull; errors := failures st ++ [e] |},
           world st, trace st)
      end
  end.
End Engine.

(* ===================================================================== *)
(** ** The request pipeline and the two handlers *)
(* ===================================================================== *)

Definition syntax_error (e : js_thrown) : GraphQLError :=
  {| kind := SyntaxError; text := message e; path := [] |}.

Section Library.
Context {W Source : Type}.
Variable prisma : client W.
(** The parser of the library: a document, or the syntax error it throws. *)
Variable parse : Source → settled document.
Variable scalar_accepts : string → value → bool.
Variable serialize : type_def → value → settled value.

(** Modelled from the spec: the library's [graphql] entry point is not part
    of the repository.  §2: incoming document, parse, structural
    validation, then the execution engine; §7: a document that fails
    validation is answered with the errors alone, before execution. *)
Definition graphql (schema : GraphQLSchema) (source : Source)
    (variableValues : list (string * value)) (w : W)
    : response * W * list event :=
  match parse source with
  | inl e => ({| data := None; errors := [syntax_error e] |}, w, [])
  | inr doc =>
      match validate schema doc (specifiedRules scalar_accepts) with
      | [] => execute prisma serialize schema variableValues doc w
      | errs => ({| data := None; errors := errs |}, w, [])
      end
  end.

(** [const schema = createGraphQLSchema(prisma)], from the [schema.js]
    next to the handler. *)
Variable schema : GraphQLSchema.

(** [return graphql({ schema, source, variableValues })] *)
Definition call_graphql (req : request Source) (w : W)
    : settled response * W * list event :=
  let '(r, w1, evs) := graphql schema (body_query req) (body_variables req) w in
  (inr r, w1, evs).
End Library.

(** [src/routes/graphql/index.ts]: the handler that calls the executor
    directly. *)
Module Index.
Section Plugin.
Context {W Source : Type}.
Variable prisma : client W.
Variable parse : Source → settled document.
Variable scalar_accepts : string → value → bool.
Variable serialize : type_def → value → settled value.
Variable schema : GraphQLSchema.

Definition handler (req : request Source) (w : W)
    : settled response * W * list event :=
  call_graphql prisma parse scalar_accepts serialize schema req w.
End Plugin.
End Index.

(** The handler with the depth-limit pass in front of the executor. *)
Module DepthLimited.
Definition limit : nat := 5.

Section Plugin.
Context {W Source : Type}.
Variable prisma : client W.
Variable parse : Source → settled document.
Variable scalar_accepts : string → value → bool.
Variable serialize : type_def → value → settled value.
Variable schema : GraphQLSchema.

(** [parse] throws on a syntax error, and the handler with it. *)
Definition handler (req : request Source) (w : W)
    : settled response * W * list event :=
  match parse (body_query req) with
  | inl thrown => (inl thrown, w, [])
  | inr ast =>
      let errors := validate schema ast [depthLimit limit] in
      if bool_decide (length errors ≠ 0)
      then (inr {| data := None; errors := errors |}, w, [])
      else call_graphql prisma parse scalar_accepts serialize schema req w
  end.
End Plugin.
End DepthLimited.

(* ===================================================================== *)
(** ** An in-memory repository *)
(* ===================================================================== *)

Fixpoint value_eqb (a b : value) {struct a} : bool :=
  match a, b with
  | VUndefined, VUndefined | VNull, VNull => true
  | VBool x, VBool y => bool_decide (x = y)
  | VNum x, VNum y => Qeq_bool x y
  | VStr x, VStr y => String.eqb x y
  | VList xs, VList ys =>
      (fix go (xs ys : list value) : bool :=
         match xs, ys with
         | [], [] => true
         | x :: xs', y :: ys' => value_eqb x y && go xs' ys'
         | _, _ => false
         end) xs ys
  | VObj xs, VObj ys =>
      (fix go (xs ys : list (string * value)) : bool :=
         match xs, ys with
         | [], [] => true
         | (k, x) :: xs', (k', y) :: ys' =>
             String.eqb k k' && value_eqb x y && go xs' ys'
         | _, _ => false
         end) xs ys
  | _, _ => false
  end.

(** Modelled from the spec: the repository layer is external; §6 gives its
    contract ([findAll], [findById] with an absent result, [findManyBy],
    [create]/[update]/[delete] that may fail).  This instance keeps one row
    list per entity kind. *)
Module Memory.
Definition store : Type := Prisma.model → list value.

Definition empty : store := λ _, [].

Definition model_eqb (a b : Prisma.model) : bool :=
  match a, b with
  | Prisma.memberType, Prisma.memberType
  | Prisma.user, Prisma.user
  | Prisma.post, Prisma.post
  | Prisma.profile, Prisma.profile
  | Prisma.subscribersOnAuthors, Prisma.subscribersOnAuthors => true
  | _, _ => false
  end.

Definition set_rows (m : Prisma.model) (rows : list value) (db : store) : store :=
  λ m', if model_eqb m m' then rows else db m'.

(** The conditions of a [where] object; a compound key such as
    [subscriberId_authorId] holds its conditions one level down. *)
Definition conditions (arg : value) : list (string * value) :=
  match get "where" arg with
  | VObj [(_, VObj inner)] => inner
  | VObj conds => conds
  | _ => []
  end.

Definition matches (conds : list (string * value)) (row : value) : bool :=
  forallb (λ '(k, v), value_eqb (get k row) v) conds.

(** Properties of [patch] override those of [row]. *)
Definition merge (row patch : value) : value :=
  match row, patch with
  | VObj old, VObj new =>
      VObj (new ++ filter (λ kv, assoc kv.1 new = None) old)
  | _, _ => row
  end.

Definition prisma : client store :=
  λ c db,
    let rows := db (on_model c) in
    let hit := matches (conditions (argument c)) in
    match on_operation c with
    | Prisma.findMany => (inr (VList (filter (λ r, hit r = true) rows)), db)
    | Prisma.findFirst =>
        (inr (default VNull (head (filter (λ r, hit r = true) rows))), db)
    | Prisma.create =>
        match get "data" (argument c) with
        | VObj props =>
            (inr (VObj props), set_rows (on_model c) (rows ++ [VObj props]) db)
        | _ => (inl (Error "Argument `data` is missing."), db)
        end
    | Prisma.update =>
        match head (filter (λ r, hit r = true) rows) with
        | Some row =>
            let row' := merge row (get "data" (argument c)) in
            (inr row',
             set_rows (on_model c)
               ((λ r, if hit r then row' else r) <$> rows) db)
        | None => (inl (Error "Record to update not found."), db)
        end
    | Prisma.delete =>
        match head (filter (λ r, hit r = true) rows) with
        | Some row =>
            (inr row,
             set_rows (on_model c) (filter (λ r, hit r = false) rows) db)
        | None => (inl (Error "Record to delete does not exist."), db)
        end
    end.

(** Scalars accept and serialise every value that is present. *)
Definition scalar_accepts : string → value → bool := λ _ v, negb (is_absent v).
Definition serialize : type_def → value → settled value := λ _ v, inr v.

(** Requests carry the document itself. *)
Definition parse : document → settled document := inr.
End Memory.

(* ===================================================================== *)
(** ** Sample data *)
(* ===================================================================== *)

Module Sample.
Definition leaf (name : string) : selection := Field None name [] [].
Definition node (name : string) (subs : list selection) : selection :=
  Field None name [] subs.
Definition by_id (name id : string) (subs : list selection) : selection :=
  Field None name [("id", Lit (VStr id))] subs.

Definition ann : value :=
  VObj [("id", VStr "u1"); ("name", VStr "Ann"); ("balance", VNum (1 # 2))].
Definition bob : value :=
  VObj [("id", VStr "u2"); ("name", VStr "Bob"); ("balance", VNum (3 # 1))].
Definition ann_profile : value :=
  VObj [("id", VStr "p1"); ("isMale", VBool false);
        ("yearOfBirth", VNum (1990 # 1)); ("memberTypeId", VStr "BUSINESS");
        ("userId", VStr "u1")].
Definition ann_post : value :=
  VObj [("id", VStr "t1"); ("title", VStr "Hello"); ("content", VStr "World");
        ("authorId", VStr "u1")].
Definition bob_follows_ann : value :=
  VObj [("subscriberId", VStr "u2"); ("authorId", VStr "u1")].
Definition bob_follows_ghost : value :=
  VObj [("subscriberId", VStr "u2"); ("authorId", VStr "u9")].

(** Two users, one profile whose member type row is missing, one post,
    and two subscription edges, one of them dangling. *)
Definition db : Memory.store :=
  Memory.set_rows Prisma.user [ann; bob]
    (Memory.set_rows Prisma.profile [ann_profile]
       (Memory.set_rows Prisma.post [ann_post]
          (Memory.set_rows Prisma.subscribersOnAuthors
             [bob_follows_ann; bob_follows_ghost] Memory.empty))).

Definition ask (k : operation_kind) (sels : list selection) : request document :=
  {| body_query := {| operation := k; selections := sels |};
     body_variables := [] |}.

(** [{ users { id name posts { title } } }] *)
Definition users_with_posts : request document :=
  ask OpQuery [node "users" [leaf "id"; leaf "name"; node "posts" [leaf "title"]]].

(** [mutation { subscribeTo(userId: "u1", authorId: "u2")
                deleteUser(id: "u2") }] *)
Definition subscribe : selection :=
  Field None "subscribeTo"
    [("userId", Lit (VStr "u1")); ("authorId", Lit (VStr "u2"))] [].
Definition remove : selection :=
  Field None "deleteUser" [("id", Lit (VStr "u2"))] [].

(** A chain of [n] nested selection sets under one root field. *)
Fixpoint nest (n : nat) : selection :=
  match n with
  | 0 => leaf "id"
  | S n' => node "userSubscribedTo" [nest n']
  end.

(** [{ users { userSubscribedTo { ... { id } } } }] of depth [S n]. *)
Definition deep (n : nat) : request document :=
  ask OpQuery [node "users" [nest n]].
End Sample.

(* ===================================================================== *)
(** ** Induction over selection trees *)
(* ===================================================================== *)

Section SelectionInduction.
Variable P : selection → Prop.
Hypothesis step : ∀ alias name arguments subs,
  Forall P subs → P (Field alias name arguments subs).

Fixpoint selection_tree_ind (s : selection) : P s :=
  match s with
  | Field alias name arguments subs =>
      step alias name arguments subs
        ((fix all (l : list selection) : Forall P l :=
            match l with
            | [] => List.Forall_nil P
            | x :: xs => List.Forall_cons P x xs (selection_tree_ind x) (all xs)
            end) subs)
  end.
End SelectionInduction.

(* ===================================================================== *)
(** ** Reading the schema surface *)
(* ===================================================================== *)

Definition fields_of (t : type_def) : list (string * field_def) :=
  match t with
  | GraphQLObjectType _ fields => fields
  | _ => []
  end.

(** The repository call a resolver body begins with. *)
Definition first_call {A : Type} (p : Prog A) : option prisma_call :=
  match p with
  | Call c _ => Some c
  | _ => None
  end.

(** The entity kinds of the store and the object type declared for each. *)
Definition entity_kinds : list Prisma.model :=
  [Prisma.memberType; Prisma.user; Prisma.post; Prisma.profile].

Definition entity_type (m : Prisma.model) : string :=
  match m with
  | Prisma.memberType => "MemberType"
  | Prisma.user => "User"
  | Prisma.post => "Post"
  | Prisma.profile => "Profile"
  | Prisma.subscribersOnAuthors => "SubscribersOnAuthors"
  end.

(** A field of [root] whose resolver, whatever parent and arguments it is
    given, begins with the repository call [shape arguments]. *)
Definition exposes (root : type_def) (t : gtype) (shape : value → prisma_call)
    : Prop :=
  ∃ name fd f,
    In (name, fd) (fields_of root) ∧ type fd = t ∧ resolve fd = Some f ∧
    ∀ parent a, first_call (f parent a) = Some (shape a).

(** A field of [root] that operates on kind [m] with operation [op]. *)
Definition operates (root : type_def) (m : Prisma.model) (op : Prisma.operation)
    : Prop :=
  ∃ name fd f,
    In (name, fd) (fields_of root) ∧ resolve fd = Some f ∧
    ∀ parent a, ∃ arg, first_call (f parent a) = Some (PrismaCall m op arg).

(** "all entities of kind K" *)
Definition collection_of (m : Prisma.model) : Prop :=
  exposes RootQueryType (nonNullListOf (entity_type m))
    (λ _, PrismaCall m Prisma.findMany VUndefined).

(** "single entity by id" *)
Definition lookup_of (m : Prisma.model) : Prop :=
  exposes RootQueryType (Named (entity_type m))
    (λ a, PrismaCall m Prisma.findFirst (where_ (VObj [("id", get "id" a)]))).

(** The fields of the mutation root that operate on the subscription
    relation, with the operation each begins with. *)
Definition relation_toggles (toggles : list (string * Prisma.operation)) : Prop :=
  ∀ name op,
    In (name, op) toggles ↔
    ∃ fd f, In (name, fd) (fields_of Mutations) ∧ resolve fd = Some f ∧
            ∀ parent a, ∃ arg,
              first_call (f parent a)
              = Some (PrismaCall Prisma.subscribersOnAuthors op arg).

(** The schema surface as the specification words it: collection and lookup
    for every kind; create, update and delete for every kind; two relation
    toggles. *)
Definition surface_for_every_kind : Prop :=
  (∀ m, In m entity_kinds → collection_of m ∧ lookup_of m) ∧
  (∀ m, In m entity_kinds →
     operates Mutations m Prisma.create ∧
     operates Mutations m Prisma.update ∧
     operates Mutations m Prisma.delete) ∧
  relation_toggles [("subscribeTo", Prisma.create);
                    ("unsubscribeFrom", Prisma.delete)].

(* ===================================================================== *)
(** ** Reading error texts *)
(* ===================================================================== *)

(** [s] occurs in [t]. *)
Definition occurs_in (s t : string) : Prop :=
  ∃ before after, t = before +:+ s +:+ after.

(** A client whose every call rejects with the same error. *)
Definition rejecting {W : Type} (e : js_thrown) : client W :=
  λ _ w, (inl e, w).

(** The specification's wording: whatever internal error a repository call
    rejects with, no error of the response shows its message text. *)
Definition internal_text_hidden : Prop :=
  ∀ (serialize : type_def → value → settled value)
    (vars : list (string * value)) (doc : document) (internal : js_thrown)
    (e : GraphQLError),
    message internal ≠ "" →
    In e (errors (execute (rejecting internal) serialize createGraphQLSchema
                    vars doc tt).1.1) →
    ¬ occurs_in (message internal) (text e).

(** The text prefix each guarded resolver puts before the caught message. *)
Definition failure_prefix (name : string) : string :=
  match name with
  | "createUser" => "Failed to create user"
  | "createProfile" => "Failed to create profile"
  | "createPost" => "Failed to create post"
  | "changePost" => "Failed to update post"
  | "changeProfile" => "Failed to update profile"
  | "changeUser" => "Failed to update user"
  | "deleteUser" => "Failed to delete user"
  | "deletePost" => "Failed to delete post"
  | "deleteProfile" => "Failed to delete profile"
  | "subscribeTo" => "Failed to subscribe"
  | "unsubscribeFrom" => "Failed to unsubscribe"
  | _ => ""
  end.

(* ===================================================================== *)
(** ** Travelling failures *)
(* ===================================================================== *)

(** The state once the resolver at [here] has settled. *)
Definition resolved_state {W : Type} (here : list segment) (w : W)
    (calls : list prisma_call) (st : exec_state W) : exec_state W :=
  record_events (Called here <$> calls)
    (set_world w (record_events [Started here] st)).

Section Failure.
Context {W : Type}.
Variable prisma : client W.
Variable serialize : type_def → value → settled value.
Variable schema : GraphQLSchema.
Variable vars : list (string * value).

(** [Raises s T parent p st q e st']: the field [s], selected on type [T]
    and run at path [p] from state [st], is declared non-null and either
    fails itself (its resolver throws or returns an absent value; then [q]
    is its own path) or has, below it and through non-null positions only,
    a non-null field at path [q] that fails.  [e] is the error of the
    failing field and [st'] the state when [s] has settled.
    [RaisesIn t subs v p st q e st'] is the same for the completion of the
    value [v] against type [t] under the selection set [subs]. *)
Inductive Raises : selection → string → value → list segment → exec_state W →
                   list segment → GraphQLError → exec_state W → Prop :=
  | Raises_throws alias name arguments subs T parent p st fd a thrown w calls :
      let here := p ++ [Key (default name alias)] in
      lookup_field schema T name = Some fd →
      is_nonNull (type fd) = true →
      argument_values vars name (args fd) arguments = inr a →
      run prisma (resolver_of name fd parent a) (world st) = (inl thrown, w, calls) →
      Raises (Field alias name arguments subs) T parent p st
        here (field_error (message thrown) here)
        (record_events [Settled here] (resolved_state here w calls st))
  | Raises_absent alias name arguments subs T parent p st fd a v w calls :
      let here := p ++ [Key (default name alias)] in
      lookup_field schema T name = Some fd →
      is_nonNull (type fd) = true →
      argument_values vars name (args fd) arguments = inr a →
      run prisma (resolver_of name fd parent a) (world st) = (inr v, w, calls) →
      is_absent v = true →
      Raises (Field alias name arguments subs) T parent p st
        here (null_violation here)
        (record_events [Settled here] (resolved_state here w calls st))
  | Raises_below alias name arguments subs T parent p st fd a v w calls q e st2 :
      let here := p ++ [Key (default name alias)] in
      lookup_field schema T name = Some fd →
      is_nonNull (type fd) = true →
      argument_values vars name (args fd) arguments = inr a →
      run prisma (resolver_of name fd parent a) (world st) = (inr v, w, calls) →
      RaisesIn (type fd) subs v here (resolved_state here w calls st) q e st2 →
      Raises (Field alias name arguments subs) T parent p st
        q e (record_events [Settled here] st2)
with RaisesIn : gtype → list selection → value → list segment → exec_state W →
                list segment → GraphQLError → exec_state W → Prop :=
  | In_nonNull t subs v p st q e st2 :
      RaisesIn t subs v p st q e st2 →
      RaisesIn (GraphQLNonNull t) subs v p st q e st2
  | In_list t subs before item after completed p st st1 q e st2 :
      is_nonNull t = true →
      complete_items
        (λ item q s,
           absorb t (complete serialize schema
                       (exec_object (exec_field prisma serialize schema vars) subs)
                       t item q s))
        before 0 p st = (Done completed, st1) →
      RaisesIn t subs item (p ++ [Index (length before)]) st1 q e st2 →
      RaisesIn (GraphQLList t) subs (VList (before ++ item :: after)) p st q e st2
  | In_object n tname fields before s after v p st entries st1 q e st2 :
      is_absent v = false →
      typeMap schema !! n = Some (GraphQLObjectType tname fields) →
      exec_fields (exec_field prisma serialize schema vars) before n v p st
      = (Done entries, st1) →
      Raises s n v p st1 q e st2 →
      RaisesIn (Named n) (before ++ s :: after) v p st q e st2.

Scheme Raises_mut := Minimality for Raises Sort Prop
  with RaisesIn_mut := Minimality for RaisesIn Sort Prop.
Combined Scheme Raises_both from Raises_mut, RaisesIn_mut.
End Failure.

(* ===================================================================== *)
(** ** Declarations of the create mutations *)
(* ===================================================================== *)

(** The declared type of the [dto] argument of a mutation field. *)
Definition dto_type (field : string) : option gtype :=
  fd ← assoc field (fields_of Mutations);
  arg_type <$> assoc "dto" (args fd).

(** Argument errors of a mutation field selected without arguments. *)
Definition bare_call_errors (scalar_accepts : string → value → bool)
    (field : string) : list GraphQLError :=
  match assoc field (fields_of Mutations) with
  | Some fd => check_arguments scalar_accepts createGraphQLSchema field (args fd) []
  | None => []
  end.

(* ===================================================================== *)
(** ** Reading traces *)
(* ===================================================================== *)

Definition field_name (s : selection) : string :=
  match s with Field _ name _ _ => name end.

(** The event belongs to the root field with response key [k]. *)
Definition under (k : string) (ev : event) : Prop :=
  head (event_path ev) = Some (Key k).

(** [st'] continues [st] with events at or below path [q]. *)
Definition continues {W : Type} (q : list segment) (st st' : exec_state W) : Prop :=
  ∃ evs, trace st' = trace st ++ evs ∧
         Forall (λ ev, q `prefix_of` event_path ev) evs.

(** A trace cut into the segments of the fields of a selection set, in
    document order; the run may have stopped before the last field.  A field
    the type declares closes its segment by settling. *)
Inductive Segments (declared : string → Prop)
    : list selection → list event → Prop :=
  | Segments_stop sels : Segments declared sels []
  | Segments_field s rest evs evs_rest :
      Forall (under (response_key s)) evs →
      (declared (field_name s) → In (Settled [Key (response_key s)]) evs) →
      Segments declared rest evs_rest →
      Segments declared (s :: rest) (evs ++ evs_rest).

(* ===================================================================== *)
(** ** Reading resolver runs *)
(* ===================================================================== *)

(** A call that only reads the store. *)
Definition is_read (c : prisma_call) : bool :=
  match on_operation c with
  | Prisma.findMany | Prisma.findFirst => true
  | _ => false
  end.

(** The object types of the schema whose fields carry resolvers. *)
Definition resolving_types : list type_def :=
  [RootQueryType; Mutations; User; Profile].

(** The fields whose resolver wraps its repository call in [try]/[catch]:
    every mutation field and the four by-id query fields. *)
Definition guarded (T : type_def) (name : string) : Prop :=
  T = Mutations ∨
  T = RootQueryType ∧ In name ["memberType"; "user"; "post"; "profile"].

(** The names of the arguments a field declares. *)
Definition declared_args (fd : field_def) : list string := (args fd).*1.

(* ===================================================================== *)
(** ** Reading the type map *)
(* ===================================================================== *)

(** The name stands for a type that may be the type of a field. *)
Definition output_kind (schema : GraphQLSchema) (n : string) : bool :=
  match typeMap schema !! n with
  | Some (GraphQLScalarType _) | Some (GraphQLEnumType _ _)
  | Some (GraphQLObjectType _ _) => true
  | _ => false
  end.

(** The name stands for a type that may be the type of an argument or of an
    input field. *)
Definition input_kind (schema : GraphQLSchema) (n : string) : bool :=
  match typeMap schema !! n with
  | Some (GraphQLScalarType _) | Some (GraphQLEnumType _ _)
  | Some (GraphQLInputObjectType _ _) => true
  | _ => false
  end.

Definition field_well_typed (schema : GraphQLSchema) (fd : field_def) : bool :=
  output_kind schema (named_type (type fd))
  && forallb (λ d, input_kind schema (named_type (arg_type d.2))) (args fd).

(** A type is filed under its own name, its field names are distinct, and
    what its fields, arguments and input fields refer to is declared with
    the right kind. *)
Definition type_well_formed (schema : GraphQLSchema) (n : string) (t : type_def)
    : bool :=
  String.eqb (type_name t) n
  && match t with
     | GraphQLObjectType _ fields =>
         bool_decide (NoDup fields.*1)
         && forallb (λ nf, field_well_typed schema nf.2) fields
     | GraphQLInputObjectType _ fields =>
         bool_decide (NoDup fields.*1)
         && forallb (λ nf, input_kind schema (named_type nf.2)) fields
     | _ => true
     end.

Definition is_object (schema : GraphQLSchema) (n : string) : bool :=
  match typeMap schema !! n with
  | Some (GraphQLObjectType _ _) => true
  | _ => false
  end.

(** What the library asserts of a schema when it is built. *)
Definition well_formed (schema : GraphQLSchema) : bool :=
  forallb (λ nt, type_well_formed schema nt.1 nt.2) (map_to_list (typeMap schema))
  && is_object schema (query schema)
  && from_option (is_object schema) true (mutation schema).

(** The schema files of the repository. *)
Definition schema_files : list GraphQLSchema :=
  [createGraphQLSchema; QueryOnly.createGraphQLSchema].

(** The schema files [T] under its name, as declared in the source. *)
Definition declares (schema : GraphQLSchema) (T : type_def) : Prop :=
  typeMap schema !! type_name T = Some T.

(** A schema with the query root and the query-side types of the source. *)
Definition query_side (schema : GraphQLSchema) : Prop :=
  query schema = "RootQueryType" ∧
  Forall (declares schema) (scalars ++ output_types).

(** The event is no repository call, or a call that satisfies [P]. *)
Definition calls_only (P : prisma_call → Prop) (ev : event) : Prop :=
  match ev with
  | Called _ c => P c
  | _ => True
  end.

(** A client whose reads leave the store as it is. *)
Definition steady {W : Type} (prisma : client W) : Prop :=
  ∀ c w, is_read c = true → (prisma c w).2 = w.

(** [st'] continues [st] with events whose calls only read; if the client
    is steady the store is the same. *)
Definition reads_on {W : Type} (prisma : client W) (st st' : exec_state W)
    : Prop :=
  (∃ evs, trace st' = trace st ++ evs ∧
          Forall (calls_only (λ c, is_read c = true)) evs) ∧
  (steady prisma → world st' = world st).

(* ===================================================================== *)
(** ** The handlers *)
(* ===================================================================== *)

Section HandlerFacts.
Context {W Source : Type}.
Variable prisma : client W.
Variable parse : Source → settled document.
Variable scalar_accepts : string → value → bool.
Variable serialize : type_def → value → settled value.
Variable schema : GraphQLSchema.

Abbreviation limited := (DepthLimited.handler prisma parse scalar_accepts serialize schema).
Abbreviation direct := (Index.handler prisma parse scalar_accepts serialize schema).
Abbreviation depth_pass ast :=
  (validate schema ast [depthLimit DepthLimited.limit]).
Abbreviation structural_pass ast :=
  (validate schema ast (specifiedRules scalar_accepts)).

Lemma depth_pass_verdict (ast : document) :
  depth_pass ast =
    if decide (DepthLimited.limit < document_depth ast)
    then [invalid "operation exceeds maximum operation depth"] else [].
Proof.
  unfold validate, depthLimit. cbn.
  destruct (decide _); reflexivity.
Qed.

Lemma limited_rejects (req : request Source) (w : W) (ast : document) :
  parse (body_query req) = inr ast →
  depth_pass ast ≠ [] →
  limited req w = (inr {| data := None; errors := depth_pass ast |}, w, []).
Proof.
  intros Hparse Hne. unfold DepthLimited.handler. rewrite Hparse. cbn zeta.
  rewrite bool_decide_true; [reflexivity|].
  destruct (validate _ _ _); [congruence | cbn; lia].
Qed.

Lemma limited_passes (req : request Source) (w : W) (ast : document) :
  parse (body_query req) = inr ast →
  depth_pass ast = [] →
  limited req w = direct req w.
Proof.
  intros Hparse Hnil. unfold DepthLimited.handler, Index.handler.
  rewrite Hparse. cbn zeta. rewrite Hnil. reflexivity.
Qed.

Lemma direct_rejects (req : request Source) (w : W) (ast : document) :
  parse (body_query req) = inr ast →
  structural_pass ast ≠ [] →
  direct req w = (inr {| data := None; errors := structural_pass ast |}, w, []).
Proof.
  intros Hparse Hne. unfold Index.handler, call_graphql, graphql.
  rewrite Hparse. destruct (validate _ _ _) eqn:E; [congruence | reflexivity].
Qed.
End HandlerFacts.

Section ValidationFacts.
Variable scalar_accepts : string → value → bool.
Variable schema : GraphQLSchema.

Abbreviation is_validation_error := (λ e : GraphQLError, kind e = ValidationError).

Lemma check_arguments_kind field defs supplied :
  Forall is_validation_error
    (check_arguments scalar_accepts schema field defs supplied).
Proof.
  unfold check_arguments. apply Forall_app. split; apply Forall_bind.
  - apply Forall_forall. intros [name a] _. cbn.
    destruct (assoc name defs) as [d|]; [destruct a as [v|x]|].
    + destruct (value_has_type scalar_accepts schema v (arg_type d));
        repeat constructor.
    + constructor.
    + repeat constructor.
  - apply Forall_forall. intros [name d] _. cbn.
    destruct (_ && _); repeat constructor.
Qed.

Lemma check_selection_kind parent s :
  Forall is_validation_error (check_selection scalar_accepts schema parent s).
Proof.
  revert parent. induction s as [alias name arguments subs IH]
    using selection_tree_ind.
  intros parent. cbn [check_selection].
  destruct (lookup_field schema parent name) as [fd|]; [|repeat constructor].
  apply Forall_app. split; [apply check_arguments_kind|].
  destruct (typeMap schema !! named_type (type fd)) as [[]|];
    destruct subs as [|sub subs']; try (repeat constructor; fail).
  apply Forall_bind. eapply Forall_impl; [exact IH|].
  intros x Hx. apply Hx.
Qed.

Lemma structural_kind (doc : document) :
  Forall is_validation_error
    (validate schema doc (specifiedRules scalar_accepts)).
Proof.
  unfold validate, specifiedRules, structural. cbn.
  rewrite app_nil_r.
  destruct (root_type schema (operation doc)); [|repeat constructor].
  apply Forall_bind, Forall_forall. intros sel _. apply check_selection_kind.
Qed.

Lemma depth_kind (doc : document) (n : nat) :
  Forall is_validation_error (validate schema doc [depthLimit n]).
Proof.
  unfold validate, depthLimit. cbn.
  destruct (decide _); repeat constructor.
Qed.
End ValidationFacts.

(** C1: a document of depth at most 5 passes the depth pass and is handed to
    the executor; a document of depth 6 is answered with exactly one
    validation error and no data; the bound is the constant 5, whatever the
    request holds. *)
Theorem depth_limit_enforced {W Source : Type} (prisma : client W)
    (parse : Source → settled document)
    (scalar_accepts : string → value → bool)
    (serialize : type_def → value → settled value) (schema : GraphQLSchema)
    (req : request Source) (w : W) (ast : document) :
  parse (body_query req) = inr ast →
  DepthLimited.limit = 5 ∧
  (document_depth ast ≤ 5 →
     validate schema ast [depthLimit 5] = [] ∧
     DepthLimited.handler prisma parse scalar_accepts serialize schema req w
     = call_graphql prisma parse scalar_accepts serialize schema req w) ∧
  (document_depth ast = 6 →
     ∃ e, kind e = ValidationError ∧
          DepthLimited.handler prisma parse scalar_accepts serialize schema req w
          = (inr {| data := None; errors := [e] |}, w, [])).
Proof.
  intros Hparse. split; [reflexivity|]. split.
  - intros Hle.
    assert (Hnil : validate schema ast [depthLimit DepthLimited.limit] = []).
    { rewrite depth_pass_verdict. unfold DepthLimited.limit.
      destruct (decide _); [lia | reflexivity]. }
    split; [exact Hnil|].
    rewrite (limited_passes _ _ _ _ _ _ _ _ Hparse Hnil). reflexivity.
  - intros Heq.
    assert (Hone : validate schema ast [depthLimit DepthLimited.limit]
                   = [invalid "operation exceeds maximum operation depth"]).
    { rewrite depth_pass_verdict. unfold DepthLimited.limit.
      destruct (decide _); [reflexivity | lia]. }
    eexists. split; [|rewrite (limited_rejects _ _ _ _ _ _ _ _ Hparse);
                      [rewrite Hone; reflexivity | rewrite Hone; discriminate]].
    reflexivity.
Qed.

Lemma depth_limit_enforced_witness :
  DepthLimited.handler Memory.prisma Memory.parse Memory.scalar_accepts
    Memory.serialize createGraphQLSchema (Sample.deep 4) Sample.db
  = call_graphql Memory.prisma Memory.parse Memory.scalar_accepts
      Memory.serialize createGraphQLSchema (Sample.deep 4) Sample.db
  ∧ ∃ e, kind e = ValidationError ∧
         DepthLimited.handler Memory.prisma Memory.parse Memory.scalar_accepts
           Memory.serialize createGraphQLSchema (Sample.deep 5) Sample.db
         = (inr {| data := None; errors := [e] |}, Sample.db, []).
Proof.
  split.
  - apply (depth_limit_enforced Memory.prisma Memory.parse Memory.scalar_accepts
             Memory.serialize createGraphQLSchema (Sample.deep 4) Sample.db
             _ eq_refl).
    vm_compute. lia.
  - apply (depth_limit_enforced Memory.prisma Memory.parse Memory.scalar_accepts
             Memory.serialize createGraphQLSchema (Sample.deep 5) Sample.db
             _ eq_refl).
    reflexivity.
Defined.

(** C3: when the depth pass or the structural pass reports an error, the
    handler answers with the validation errors alone: no data, no resolver
    invoked, no repository call, the store untouched. *)
Theorem validation_short_circuits {W Source : Type} (prisma : client W)
    (parse : Source → settled document)
    (scalar_accepts : string → value → bool)
    (serialize : type_def → value → settled value) (schema : GraphQLSchema)
    (req : request Source) (w : W) (ast : document) :
  parse (body_query req) = inr ast →
  validate schema ast [depthLimit DepthLimited.limit] ≠ []
  ∨ validate schema ast (specifiedRules scalar_accepts) ≠ [] →
  ∃ errs, errs ≠ [] ∧ Forall (λ e, kind e = ValidationError) errs ∧
    DepthLimited.handler prisma parse scalar_accepts serialize schema req w
    = (inr {| data := None; errors := errs |}, w, []).
Proof.
  intros Hparse Hbad.
  destruct (validate schema ast [depthLimit DepthLimited.limit]) as [|e es] eqn:Hd.
  - destruct Hbad as [Hbad|Hbad]; [congruence|].
    exists (validate schema ast (specifiedRules scalar_accepts)).
    split; [exact Hbad|]. split; [apply structural_kind|].
    rewrite (limited_passes _ _ _ _ _ _ _ _ Hparse Hd).
    apply (direct_rejects _ _ _ _ _ _ _ _ Hparse Hbad).
  - exists (e :: es). split; [discriminate|]. split.
    + rewrite <- Hd. apply depth_kind.
    + rewrite <- Hd. apply (limited_rejects _ _ _ _ _ _ _ _ Hparse).
      rewrite Hd. discriminate.
Qed.

Lemma validation_short_circuits_witness :
  ∃ errs, errs ≠ [] ∧ Forall (λ e, kind e = ValidationError) errs ∧
    DepthLimited.handler Memory.prisma Memory.parse Memory.scalar_accepts
      Memory.serialize createGraphQLSchema
      (Sample.ask OpMutation [Sample.node "createUser" [Sample.leaf "id"]])
      Sample.db
    = (inr {| data := None; errors := errs |}, Sample.db, []).
Proof.
  apply (validation_short_circuits Memory.prisma Memory.parse
           Memory.scalar_accepts Memory.serialize createGraphQLSchema
           (Sample.ask OpMutation [Sample.node "createUser" [Sample.leaf "id"]])
           Sample.db _ eq_refl).
  right. vm_compute. discriminate.
Defined.

(** C10: on a request whose document parses and passes the depth-limit-5
    pass, the handler with that pass returns what the handler without it
    returns, for the same schema, variables and store. *)
Theorem handlers_agree {W Source : Type} (prisma : client W)
    (parse : Source → settled document)
    (scalar_accepts : string → value → bool)
    (serialize : type_def → value → settled value) (schema : GraphQLSchema)
    (req : request Source) (w : W) (ast : document) :
  parse (body_query req) = inr ast →
  validate schema ast [depthLimit 5] = [] →
  DepthLimited.handler prisma parse scalar_accepts serialize schema req w
  = Index.handler prisma parse scalar_accepts serialize schema req w.
Proof.
  intros Hparse Hnil. exact (limited_passes _ _ _ _ _ _ _ _ Hparse Hnil).
Qed.

Lemma handlers_agree_witness :
  DepthLimited.handler Memory.prisma Memory.parse Memory.scalar_accepts
    Memory.serialize createGraphQLSchema Sample.users_with_posts Sample.db
  = Index.handler Memory.prisma Memory.parse Memory.scalar_accepts
      Memory.serialize createGraphQLSchema Sample.users_with_posts Sample.db.
Proof.
  apply (handlers_agree Memory.prisma Memory.parse Memory.scalar_accepts
           Memory.serialize createGraphQLSchema Sample.users_with_posts
           Sample.db _ eq_refl).
  reflexivity.
Defined.

(* ===================================================================== *)
(** ** The schema surface *)
(* ===================================================================== *)

Lemma assoc_In {A : Type} (k : string) (v : A) (kvs : list (string * A)) :
  assoc k kvs = Some v → In (k, v) kvs.
Proof.
  induction kvs as [|[k' v'] rest IH]; cbn; [discriminate|].
  destruct (String.eqb k k') eqn:E.
  - intros [= ->]. apply String.eqb_eq in E as ->. now left.
  - intros H. right. exact (IH H).
Qed.

(** Splits a membership in a declared field list into its cases. *)
Ltac field_cases H :=
  cbn in H;
  repeat (destruct H as [H|H]; [injection H as <- <-|]);
  [..|contradiction].

(** Settles a case by running the resolver on one input and comparing the
    call it begins with. *)
Ltac by_first_call Hres Hcall :=
  cbn in Hres; injection Hres as <-;
  destruct (Hcall VNull VNull) as [? Hc]; cbn in Hc; congruence.

Lemma no_mutation_on_memberType (op : Prisma.operation) :
  ¬ operates Mutations Prisma.memberType op.
Proof.
  intros (name & fd & f & HIn & Hres & Hcall).
  field_cases HIn; by_first_call Hres Hcall.
Qed.

Ltac exposes_by name :=
  do 3 eexists; split; [apply (assoc_In name); reflexivity|];
  split; [reflexivity|]; split; [reflexivity|]; intros; reflexivity.

Lemma query_root_surface (m : Prisma.model) :
  In m entity_kinds → collection_of m ∧ lookup_of m.
Proof.
  intros Hm. cbn in Hm.
  destruct Hm as [<-|[<-|[<-|[<-|[]]]]]; split.
  - exposes_by "memberTypes".
  - exposes_by "memberType".
  - exposes_by "users".
  - exposes_by "user".
  - exposes_by "posts".
  - exposes_by "post".
  - exposes_by "profiles".
  - exposes_by "profile".
Qed.

Ltac operates_by name :=
  do 3 eexists; split; [apply (assoc_In name); reflexivity|];
  split; [reflexivity|]; intros; eexists; reflexivity.

Lemma mutation_root_surface (m : Prisma.model) :
  In m [Prisma.user; Prisma.post; Prisma.profile] →
  operates Mutations m Prisma.create ∧
  operates Mutations m Prisma.update ∧
  operates Mutations m Prisma.delete.
Proof.
  intros Hm. cbn in Hm. destruct Hm as [<-|[<-|[<-|[]]]]; repeat split.
  - operates_by "createUser".
  - operates_by "changeUser".
  - operates_by "deleteUser".
  - operates_by "createPost".
  - operates_by "changePost".
  - operates_by "deletePost".
  - operates_by "createProfile".
  - operates_by "changeProfile".
  - operates_by "deleteProfile".
Qed.

Lemma two_relation_toggles :
  relation_toggles [("subscribeTo", Prisma.create);
                    ("unsubscribeFrom", Prisma.delete)].
Proof.
  intros name op. split.
  - intros H. cbn in H. destruct H as [[= <- <-]|[[= <- <-]|[]]].
    + do 2 eexists. split; [apply (assoc_In "subscribeTo"); reflexivity|].
      split; [reflexivity|]. intros. eexists. reflexivity.
    + do 2 eexists. split; [apply (assoc_In "unsubscribeFrom"); reflexivity|].
      split; [reflexivity|]. intros. eexists. reflexivity.
  - intros (fd & f & HIn & Hres & Hcall).
    field_cases HIn;
      try (by_first_call Hres Hcall);
      cbn in Hres; injection Hres as <-;
      destruct (Hcall VNull VNull) as [? Hc]; cbn in Hc;
      injection Hc as <- _; cbn; tauto.
Qed.

(** C7, as worded: not every entity kind has create, update and delete
    operations on the mutation root; the member types have none. *)
Lemma surface_for_every_kind_fails : ¬ surface_for_every_kind.
Proof.
  intros (_ & Hcrud & _).
  destruct (Hcrud Prisma.memberType) as (Hcreate & _); [now left|].
  exact (no_mutation_on_memberType Prisma.create Hcreate).
Qed.

(** C7, amended: the query root has a collection field and a by-id lookup
    field for each of the four entity kinds; the mutation root has create,
    update and delete operations for users, posts and profiles and no field
    that operates on member types; exactly two of its fields operate on the
    subscription relation: [subscribeTo] creates an edge and
    [unsubscribeFrom] deletes one, both from [userId] to [authorId]. *)
Theorem schema_surface :
  (∀ m, In m entity_kinds → collection_of m ∧ lookup_of m) ∧
  (∀ m, In m [Prisma.user; Prisma.post; Prisma.profile] →
     operates Mutations m Prisma.create ∧
     operates Mutations m Prisma.update ∧
     operates Mutations m Prisma.delete) ∧
  (∀ op, ¬ operates Mutations Prisma.memberType op) ∧
  relation_toggles [("subscribeTo", Prisma.create);
                    ("unsubscribeFrom", Prisma.delete)] ∧
  (∀ parent a,
     first_call (subscribeTo_resolve parent a)
     = Some (PrismaCall Prisma.subscribersOnAuthors Prisma.create
               (data_ (VObj [("subscriberId", get "userId" a);
                             ("authorId", get "authorId" a)]))) ∧
     first_call (unsubscribeFrom_resolve parent a)
     = Some (PrismaCall Prisma.subscribersOnAuthors Prisma.delete
               (where_ (VObj [("subscriberId_authorId",
                               VObj [("subscriberId", get "userId" a);
                                     ("authorId", get "authorId" a)])])))).
Proof.
  split; [exact query_root_surface|].
  split; [exact mutation_root_surface|].
  split; [exact no_mutation_on_memberType|].
  split; [exact two_relation_toggles|].
  intros parent a. split; reflexivity.
Qed.

(* ===================================================================== *)
(** ** Resolver bodies *)
(* ===================================================================== *)

Section ResolverFacts.
Context {W : Type}.
Variable prisma : client W.

Lemma run_call_all {A : Type} (cs : list prisma_call)
    (k : list (settled value) → Prog A) (w : W) :
  run prisma (call_all cs k) w
  = let '(rs, w1) := answers prisma cs w in
    let '(r, w2, calls) := run prisma (k rs) w1 in
    (r, w2, cs ++ calls).
Proof.
  revert k w. induction cs as [|c cs IH]; intros k w.
  - cbn. destruct (run prisma (k []) w) as [[r w2] calls]. reflexivity.
  - cbn [call_all run answers]. destruct (prisma c w) as [r0 w0].
    rewrite IH. destruct (answers prisma cs w0) as [rs w1].
    destruct (run prisma (k (r0 :: rs)) w1) as [[r w2] calls]. reflexivity.
Qed.

Lemma first_rejection_fulfilled (vs : list value) :
  first_rejection (inr <$> vs) = None.
Proof. induction vs; [reflexivity | assumption]. Qed.

Lemma fulfilled_all (vs : list value) : fulfilled (inr <$> vs) = vs.
Proof.
  unfold fulfilled. induction vs as [|v vs IH]; [reflexivity|].
  cbn. f_equal. exact IH.
Qed.

Lemma run_Promise_all (cs : list prisma_call) (vs : list value) (w w1 : W) :
  answers prisma cs w = (inr <$> vs, w1) →
  run prisma (Promise_all cs) w = (inr (VList vs), w1, cs).
Proof.
  intros H. unfold Promise_all. rewrite run_call_all, H.
  rewrite first_rejection_fulfilled, fulfilled_all. cbn.
  rewrite app_nil_r. reflexivity.
Qed.

Lemma answers_length (cs : list prisma_call) (w : W) :
  length (answers prisma cs w).1 = length cs.
Proof.
  revert w. induction cs as [|c cs IH]; intros w; [reflexivity|].
  cbn [answers]. destruct (prisma c w) as [r w1]. specialize (IH w1).
  destruct (answers prisma cs w1) as [rs w2]. cbn in *. f_equal. exact IH.
Qed.

Lemma run_subscription_resolver (filter_key lookup_key : string)
    (user a : value) (edges users : list value) (w w1 w2 : W) :
  prisma (PrismaCall Prisma.subscribersOnAuthors Prisma.findMany
            (where_ (VObj [(filter_key, get "id" user)]))) w
  = (inr (VList edges), w1) →
  answers prisma (counterpart_lookups lookup_key edges) w1 = (inr <$> users, w2) →
  run prisma (subscription_resolver filter_key lookup_key user a) w
  = (inr (VList users), w2,
     PrismaCall Prisma.subscribersOnAuthors Prisma.findMany
       (where_ (VObj [(filter_key, get "id" user)]))
     :: counterpart_lookups lookup_key edges).
Proof.
  intros Hedges Hlookups. unfold subscription_resolver, await.
  cbn [bind run]. rewrite Hedges. cbn [bind].
  rewrite (run_Promise_all _ users _ w2 Hlookups). reflexivity.
Qed.
End ResolverFacts.

(** C8: each of the two subscription resolvers issues one user lookup per
    edge the repository returned, by the edge's counterpart id and in the
    order of the edges, and returns what those lookups fulfilled with, one
    element per edge in the same order; a lookup that found no user gives a
    [null] element, although the declared element type is non-null [User]. *)
Theorem subscription_lists (name filter_key lookup_key : string) :
  In (name, (filter_key, lookup_key))
     [("userSubscribedTo", ("subscriberId", "authorId"));
      ("subscribedToUser", ("authorId", "subscriberId"))] →
  ∃ f,
    assoc name (fields_of User)
    = Some {| type := GraphQLNonNull (GraphQLList (GraphQLNonNull (Named "User")));
              args := []; resolve := Some f |} ∧
    ∀ (W : Type) (prisma : client W) (w w1 w2 : W) (user a : value)
      (edges users : list value),
      let edges_of_user :=
        PrismaCall Prisma.subscribersOnAuthors Prisma.findMany
          (where_ (VObj [(filter_key, get "id" user)])) in
      let lookups :=
        (λ edge, PrismaCall Prisma.user Prisma.findFirst
                   (where_ (VObj [("id", get lookup_key edge)]))) <$> edges in
      prisma edges_of_user w = (inr (VList edges), w1) →
      answers prisma lookups w1 = (inr <$> users, w2) →
      run prisma (f user a) w = (inr (VList users), w2, edges_of_user :: lookups) ∧
      length users = length edges.
Proof.
  intros Hname.
  exists (subscription_resolver filter_key lookup_key). split.
  - cbn in Hname. destruct Hname as [[= <- <- <-]|[[= <- <- <-]|[]]]; reflexivity.
  - intros W prisma w w1 w2 user a edges users edges_of_user lookups Hedges Hlookups.
    split.
    + exact (run_subscription_resolver prisma _ _ _ _ _ _ _ _ _ Hedges Hlookups).
    + pose proof (answers_length prisma lookups w1) as Hlen.
      rewrite Hlookups in Hlen. cbn in Hlen. subst lookups.
      rewrite !length_fmap in Hlen. exact Hlen.
Qed.

Lemma subscription_lists_witness :
  (run Memory.prisma
     (subscription_resolver "subscriberId" "authorId" Sample.bob VUndefined)
     Sample.db).1
  = (inr (VList [Sample.ann; VNull]), Sample.db).
Proof.
  destruct (subscription_lists "userSubscribedTo" "subscriberId" "authorId")
    as (f & Hf & Hrun); [now left|].
  injection Hf as <-.
  exact (f_equal fst
           (proj1 (Hrun Memory.store Memory.prisma Sample.db Sample.db Sample.db
                     Sample.bob VUndefined
                     [Sample.bob_follows_ann; Sample.bob_follows_ghost]
                     [Sample.ann; VNull] eq_refl eq_refl))).
Defined.

(* ===================================================================== *)
(** ** Failing resolvers *)
(* ===================================================================== *)

Lemma typeMap_Mutations : typeMap createGraphQLSchema !! "Mutations" = Some Mutations.
Proof. vm_compute. reflexivity. Qed.

Lemma typeMap_RootQueryType :
  typeMap createGraphQLSchema !! "RootQueryType" = Some RootQueryType.
Proof. vm_compute. reflexivity. Qed.

Lemma lookup_mutation_field (name : string) :
  lookup_field createGraphQLSchema "Mutations" name
  = assoc name (fields_of Mutations).
Proof. unfold lookup_field. rewrite typeMap_Mutations. reflexivity. Qed.

Lemma lookup_query_field (name : string) :
  lookup_field createGraphQLSchema "RootQueryType" name
  = assoc name (fields_of RootQueryType).
Proof. unfold lookup_field. rewrite typeMap_RootQueryType. reflexivity. Qed.

(** C6, as worded, fails: a rejected [createUser] surfaces the repository's
    own message text. *)
Lemma internal_text_hidden_fails : ¬ internal_text_hidden.
Proof.
  intros H.
  apply (H Memory.serialize []
           {| operation := OpMutation;
              selections :=
                [Field None "createUser"
                   [("dto", Lit (VObj [("name", VStr "A"); ("balance", VNum 0)]))]
                   [Sample.leaf "id"]] |}
           (Error "connect ECONNREFUSED 10.0.0.7:5432")
           (field_error
              "Failed to create user: connect ECONNREFUSED 10.0.0.7:5432"
              [Key "createUser"])).
  - discriminate.
  - vm_compute. left. reflexivity.
  - exists "Failed to create user: ", "". reflexivity.
Qed.

Section EngineFacts.
Context {W : Type}.
Variable prisma : client W.
Variable serialize : type_def → value → settled value.
Variable schema : GraphQLSchema.
Variable vars : list (string * value).

Abbreviation exec := (exec_field prisma serialize schema vars).

Lemma exec_field_throws alias name arguments subs parent_type parent p st
    fd a e w calls :
  lookup_field schema parent_type name = Some fd →
  argument_values vars name (args fd) arguments = inr a →
  run prisma (resolver_of name fd parent a) (world st) = (inl e, w, calls) →
  exec (Field alias name arguments subs) parent_type parent p st
  = let here := p ++ [Key (default name alias)] in
    let st1 := resolved_state here w calls st in
    if is_nonNull (type fd)
    then (Bubble (field_error (message e) here),
          record_events [Settled here] st1)
    else (Done VNull,
          record_events [Settled here]
            (record_failure (field_error (message e) here) st1)).
Proof.
  intros Hfd Hargs Hrun. cbn [exec_field]. rewrite Hfd.
  unfold resolve_and_complete. rewrite Hargs. cbn [world record_events].
  rewrite Hrun. unfold absorb. destruct (is_nonNull (type fd)); reflexivity.
Qed.

Lemma exec_field_returns alias name arguments subs parent_type parent p st
    fd a v w calls :
  lookup_field schema parent_type name = Some fd →
  argument_values vars name (args fd) arguments = inr a →
  run prisma (resolver_of name fd parent a) (world st) = (inr v, w, calls) →
  exec (Field alias name arguments subs) parent_type parent p st
  = let here := p ++ [Key (default name alias)] in
    let r := absorb (type fd)
               (complete serialize schema
                  (exec_object exec subs) (type fd) v here
                  (resolved_state here w calls st)) in
    (r.1, record_events [Settled here] r.2).
Proof.
  intros Hfd Hargs Hrun. cbn [exec_field]. rewrite Hfd.
  unfold resolve_and_complete. rewrite Hargs. cbn [world record_events].
  rewrite Hrun. reflexivity.
Qed.

(** A document with a single root field. *)
Lemma execute_single (k : operation_kind) (root : string) (sel : selection)
    (w : W) :
  root_type schema k = Some root →
  execute prisma serialize schema vars
    {| operation := k; selections := [sel] |} w
  = match exec sel root VUndefined [] (initial w) with
    | (Done v, st) =>
        ({| data := Some (VObj [(response_key sel, v)]);
            errors := failures st |}, world st, trace st)
    | (Bubble e, st) =>
        ({| data := Some VNull; errors := failures st ++ [e] |},
         world st, trace st)
    end.
Proof.
  intros Hroot. unfold execute. cbn [operation selections]. rewrite Hroot.
  unfold exec_object. cbn [exec_fields].
  destruct (exec sel root VUndefined [] (initial w)) as [[v|e] st]; reflexivity.
Qed.
End EngineFacts.

(** Runs a guarded resolver against the client that rejects every call. *)
Ltac rejected_field Hargs lookup :=
  rewrite execute_single with (root := lookup) by reflexivity;
  erewrite exec_field_throws;
    [ | first [rewrite lookup_mutation_field | rewrite lookup_query_field];
        reflexivity
      | exact Hargs
      | reflexivity ];
  reflexivity.

(** C6, amended: a resolver that throws never crashes the execution; the
    engine records one field error at the field's path whose text is the
    thrown message itself (a nullable field becomes [null], a non-null field
    passes the error up).  Every mutation resolver throws the caught message
    text behind its own fixed prefix, so a rejected repository call is
    answered with a [null] payload and that one error; the four by-id query
    resolvers do likewise when the caught value is an [Error], and throw the
    generic "Unknown error fetching <kind>" when it is not. *)
Theorem resolver_failures_forward_text {W : Type}
    (serialize : type_def → value → settled value)
    (vars : list (string * value)) (w : W) (e : js_thrown)
    (alias : option string) (arguments : list (string * arg_value))
    (subs : list selection) :
  (∀ (prisma : client W) (schema : GraphQLSchema) T parent p st name fd a
     thrown w' calls,
     let here := p ++ [Key (default name alias)] in
     let r := exec_field prisma serialize schema vars
                (Field alias name arguments subs) T parent p st in
     lookup_field schema T name = Some fd →
     argument_values vars name (args fd) arguments = inr a →
     run prisma (resolver_of name fd parent a) (world st) = (inl thrown, w', calls) →
     (is_nonNull (type fd) = true →
      r.1 = Bubble (field_error (message thrown) here) ∧
      failures r.2 = failures st) ∧
     (is_nonNull (type fd) = false →
      r.1 = Done VNull ∧
      failures r.2 = failures st ++ [field_error (message thrown) here])) ∧
  (∀ name fd a,
     In (name, fd) (fields_of Mutations) →
     argument_values vars name (args fd) arguments = inr a →
     (execute (rejecting e) serialize createGraphQLSchema vars
        {| operation := OpMutation;
           selections := [Field alias name arguments subs] |} w).1
     = ({| data := Some VNull;
           errors := [field_error (failure_prefix name +:+ ": " +:+ message e)
                        [Key (default name alias)]] |}, w)) ∧
  (∀ name fd a,
     In name ["memberType"; "user"; "post"; "profile"] →
     assoc name (fields_of RootQueryType) = Some fd →
     argument_values vars name (args fd) arguments = inr a →
     (execute (rejecting e) serialize createGraphQLSchema vars
        {| operation := OpQuery;
           selections := [Field alias name arguments subs] |} w).1
     = ({| data := Some (VObj [(default name alias, VNull)]);
           errors := [field_error
                        (if instanceof_Error e
                         then "Error fetching " +:+ name +:+ ": " +:+ message e
                         else "Unknown error fetching " +:+ name)
                        [Key (default name alias)]] |}, w)).
Proof.
  split; [|split].
  - intros prisma schema T parent p st name fd a thrown w' calls here r
      Hfd Hargs Hrun.
    subst r.
    rewrite (exec_field_throws _ _ _ _ _ _ _ _ _ _ _ _ _ _ _ _ _ Hfd Hargs Hrun).
    cbn zeta. fold here.
    destruct (is_nonNull (type fd)); split; intros [=]; split; reflexivity.
  - intros name fd a HIn Hargs.
    field_cases HIn; rejected_field Hargs "Mutations".
  - intros name fd a HIn Hfd Hargs. cbn in HIn.
    destruct HIn as [<-|[<-|[<-|[<-|[]]]]];
      cbn in Hfd; injection Hfd as <-;
      destruct e as [[] msg]; rejected_field Hargs "RootQueryType".
Qed.

Lemma resolver_failures_forward_text_witness :
  (execute (rejecting (Error "db down")) Memory.serialize createGraphQLSchema []
     {| operation := OpMutation;
        selections := [Field None "deleteUser" [("id", Lit (VStr "u1"))] []] |}
     tt).1
  = ({| data := Some VNull;
        errors := [field_error "Failed to delete user: db down"
                     [Key "deleteUser"]] |}, tt).
Proof.
  apply (proj1 (proj2 (resolver_failures_forward_text Memory.serialize [] tt
                         (Error "db down") None [("id", Lit (VStr "u1"))] []))
           "deleteUser"
           (with_args (nonNull GraphQLString) [("id", nonNull UUIDType)]
              (delete_resolver Prisma.user "User deleted" "Failed to delete user"))
           (VObj [("id", VStr "u1")])).
  - apply (assoc_In "deleteUser"). reflexivity.
  - reflexivity.
Defined.

(* ===================================================================== *)
(** ** Lookups that find nothing *)
(* ===================================================================== *)

Lemma query_root_of (schema : GraphQLSchema) :
  In schema [createGraphQLSchema; QueryOnly.createGraphQLSchema] →
  root_type schema OpQuery = Some "RootQueryType" ∧
  ∀ name, lookup_field schema "RootQueryType" name
          = assoc name (fields_of RootQueryType).
Proof.
  intros [<-|[<-|[]]]; (split; [reflexivity|]); intros name; unfold lookup_field.
  - rewrite typeMap_RootQueryType. reflexivity.
  - replace (typeMap QueryOnly.createGraphQLSchema !! "RootQueryType")
      with (Some RootQueryType) by (vm_compute; reflexivity).
    reflexivity.
Qed.

(** C4: a by-id query through one of the four nullable root fields, for an
    id the repository finds nothing for, is answered with [null] under the
    field's key and no error. *)
Theorem missing_entity_is_null {W Source : Type} (prisma : client W)
    (parse : Source → settled document)
    (scalar_accepts : string → value → bool)
    (serialize : type_def → value → settled value) (schema : GraphQLSchema)
    (req : request Source) (w w1 : W) (name : string) (m : Prisma.model)
    (alias : option string) (arguments : list (string * arg_value))
    (subs : list selection) (fd : field_def) (a absent : value) :
  let doc := {| operation := OpQuery;
                selections := [Field alias name arguments subs] |} in
  let lookup := PrismaCall m Prisma.findFirst (where_ (VObj [("id", get "id" a)])) in
  let here := [Key (default name alias)] in
  In schema [createGraphQLSchema; QueryOnly.createGraphQLSchema] →
  In (name, m) [("memberType", Prisma.memberType); ("user", Prisma.user);
                ("post", Prisma.post); ("profile", Prisma.profile)] →
  parse (body_query req) = inr doc →
  validate schema doc [depthLimit DepthLimited.limit] = [] →
  validate schema doc (specifiedRules scalar_accepts) = [] →
  assoc name (fields_of RootQueryType) = Some fd →
  argument_values (body_variables req) name (args fd) arguments = inr a →
  prisma lookup w = (inr absent, w1) →
  is_absent absent = true →
  is_nonNull (type fd) = false ∧
  DepthLimited.handler prisma parse scalar_accepts serialize schema req w
  = (inr {| data := Some (VObj [(default name alias, VNull)]); errors := [] |},
     w1, [Started here; Called here lookup; Settled here]).
Proof.
  intros doc lookup here Hschema Hname Hparse Hdepth Hstruct Hfd Hargs Hcall Habsent.
  destruct (query_root_of schema Hschema) as [Hroot Hlookup].
  assert (Hrun : run prisma (resolver_of name fd VUndefined a) w
                 = (inr absent, w1, [lookup]) ∧ type fd = Named (entity_type m)).
  { cbn in Hname. destruct Hname as [[= <- <-]|[[= <- <-]|[[= <- <-]|[[= <- <-]|[]]]]];
      cbn in Hfd; injection Hfd as <-; (split; [|reflexivity]);
      cbn; fold lookup; rewrite Hcall; reflexivity. }
  destruct Hrun as [Hrun Htype].
  split; [rewrite Htype; reflexivity|].
  rewrite (limited_passes _ _ _ _ _ _ _ _ Hparse Hdepth).
  unfold Index.handler, call_graphql, graphql. rewrite Hparse, Hstruct.
  subst doc. rewrite (execute_single _ _ _ _ _ _ _ _ Hroot).
  erewrite exec_field_returns; [|rewrite Hlookup; exact Hfd|exact Hargs|exact Hrun].
  rewrite Htype. cbn [complete]. rewrite Habsent. reflexivity.
Qed.

Lemma missing_entity_is_null_witness :
  DepthLimited.handler Memory.prisma Memory.parse Memory.scalar_accepts
    Memory.serialize createGraphQLSchema
    (Sample.ask OpQuery [Sample.by_id "user" "u7" [Sample.leaf "name"]])
    Sample.db
  = (inr {| data := Some (VObj [("user", VNull)]); errors := [] |}, Sample.db,
     [Started [Key "user"];
      Called [Key "user"]
        (PrismaCall Prisma.user Prisma.findFirst
           (where_ (VObj [("id", VStr "u7")])));
      Settled [Key "user"]]).
Proof.
  refine (proj2 (missing_entity_is_null Memory.prisma Memory.parse
            Memory.scalar_accepts Memory.serialize createGraphQLSchema
            (Sample.ask OpQuery [Sample.by_id "user" "u7" [Sample.leaf "name"]])
            Sample.db Sample.db "user" Prisma.user None
            [("id", Lit (VStr "u7"))] [Sample.leaf "name"]
            _ (VObj [("id", VStr "u7")]) VNull
            _ _ eq_refl _ _ eq_refl eq_refl eq_refl eq_refl)).
  - left. reflexivity.
  - right. left. reflexivity.
  - vm_compute. reflexivity.
  - vm_compute. reflexivity.
Defined.

(* ===================================================================== *)
(** ** The optional [dto] of [createProfile] *)
(* ===================================================================== *)

(** C9: [createProfile] declares [dto] without the non-null wrapper that
    [createUser] and [createPost] put on theirs; selected without [dto] it
    passes argument validation (they do not, and their resolvers are not
    invoked), its resolver is invoked and attempts the repository create with
    no data, and the field fails with the error of that attempt. *)
Theorem createProfile_accepts_missing_dto {W Source : Type} (prisma : client W)
    (parse : Source → settled document)
    (scalar_accepts : string → value → bool)
    (serialize : type_def → value → settled value)
    (req : request Source) (w w1 : W) (field : string)
    (alias : option string) (subs : list selection) (e : js_thrown) :
  let doc := {| operation := OpMutation;
                selections := [Field alias field [] subs] |} in
  let attempt := PrismaCall Prisma.profile Prisma.create (data_ VUndefined) in
  let here := [Key (default "createProfile" alias)] in
  let handler := DepthLimited.handler prisma parse scalar_accepts serialize
                   createGraphQLSchema in
  parse (body_query req) = inr doc →
  (dto_type "createProfile" = Some (Named "CreateProfileInput") ∧
   dto_type "createUser" = Some (GraphQLNonNull (Named "CreateUserInput")) ∧
   dto_type "createPost" = Some (GraphQLNonNull (Named "CreatePostInput"))) ∧
  bare_call_errors scalar_accepts "createProfile" = [] ∧
  (field = "createUser" ∨ field = "createPost" →
   ∃ errs, errs ≠ [] ∧ handler req w = (inr {| data := None; errors := errs |}, w, [])) ∧
  (field = "createProfile" →
   validate createGraphQLSchema doc [depthLimit DepthLimited.limit] = [] →
   validate createGraphQLSchema doc (specifiedRules scalar_accepts) = [] →
   prisma attempt w = (inl e, w1) →
   handler req w
   = (inr {| data := Some VNull;
             errors := [field_error ("Failed to create profile: " +:+ message e)
                          here] |},
      w1, [Started here; Called here attempt; Settled here])).
Proof.
  intros doc attempt here handler Hparse.
  split; [repeat split|]. split; [reflexivity|]. split.
  - intros Hfield.
    assert (Hbad : validate createGraphQLSchema doc (specifiedRules scalar_accepts) ≠ []).
    { unfold validate, specifiedRules, structural. cbn [mbind list_bind].
      change (root_type createGraphQLSchema (operation doc)) with (Some "Mutations").
      cbn [selections doc mbind list_bind check_selection].
      rewrite lookup_mutation_field.
      destruct Hfield as [->| ->]; cbn; discriminate. }
    subst handler.
    destruct (validate createGraphQLSchema doc [depthLimit DepthLimited.limit])
      as [|d ds] eqn:Hd.
    + exists (validate createGraphQLSchema doc (specifiedRules scalar_accepts)).
      split; [exact Hbad|].
      rewrite (limited_passes _ _ _ _ _ _ _ _ Hparse Hd).
      exact (direct_rejects _ _ _ _ _ _ _ _ Hparse Hbad).
    + exists (d :: ds). split; [discriminate|]. rewrite <- Hd.
      apply (limited_rejects _ _ _ _ _ _ _ _ Hparse). rewrite Hd. discriminate.
  - intros -> Hdepth Hstruct Hcall. subst handler.
    rewrite (limited_passes _ _ _ _ _ _ _ _ Hparse Hdepth).
    unfold Index.handler, call_graphql, graphql. rewrite Hparse, Hstruct.
    subst doc. rewrite execute_single with (root := "Mutations") by reflexivity.
    erewrite exec_field_throws;
      [ | rewrite lookup_mutation_field; reflexivity
        | reflexivity
        | cbn; fold attempt; rewrite Hcall; reflexivity ].
    reflexivity.
Qed.

Lemma createProfile_accepts_missing_dto_witness :
  DepthLimited.handler Memory.prisma Memory.parse Memory.scalar_accepts
    Memory.serialize createGraphQLSchema
    (Sample.ask OpMutation [Sample.node "createProfile" [Sample.leaf "id"]])
    Sample.db
  = (inr {| data := Some VNull;
            errors := [field_error
                         "Failed to create profile: Argument `data` is missing."
                         [Key "createProfile"]] |},
     Sample.db,
     [Started [Key "createProfile"];
      Called [Key "createProfile"]
        (PrismaCall Prisma.profile Prisma.create (data_ VUndefined));
      Settled [Key "createProfile"]]).
Proof.
  refine (proj2 (proj2 (proj2
            (createProfile_accepts_missing_dto Memory.prisma Memory.parse
               Memory.scalar_accepts Memory.serialize
               (Sample.ask OpMutation
                  [Sample.node "createProfile" [Sample.leaf "id"]])
               Sample.db Sample.db "createProfile" None [Sample.leaf "id"]
               (Error "Argument `data` is missing.") eq_refl)))
            eq_refl _ _ eq_refl).
  - vm_compute. reflexivity.
  - vm_compute. reflexivity.
Defined.

(* ===================================================================== *)
(** ** Null propagation *)
(* ===================================================================== *)

Section Propagation.
Context {W : Type}.
Variable prisma : client W.
Variable serialize : type_def → value → settled value.
Variable schema : GraphQLSchema.
Variable vars : list (string * value).

Abbreviation run_field := (exec_field prisma serialize schema vars).
Abbreviation run_fields := (exec_fields run_field).
Abbreviation finish subs := (complete serialize schema (exec_object run_field subs)).
Abbreviation raises := (Raises prisma serialize schema vars).
Abbreviation raises_in := (RaisesIn prisma serialize schema vars).

Lemma complete_absent subs t v p (st : exec_state W) :
  is_absent v = true →
  finish subs t v p st = (Done VNull, st)
  ∨ finish subs t v p st = (Bubble (null_violation p), st).
Proof.
  intros Hv. induction t as [n|t IH|t IH]; cbn [complete].
  - rewrite Hv. now left.
  - rewrite Hv. now left.
  - right. destruct IH as [-> | ->]; reflexivity.
Qed.

Lemma complete_nonNull_absent subs t v p (st : exec_state W) :
  is_nonNull t = true → is_absent v = true →
  finish subs t v p st = (Bubble (null_violation p), st).
Proof.
  intros Ht Hv. destruct t as [n|t|t]; try discriminate.
  cbn [complete].
  destruct (complete_absent subs t v p st Hv) as [-> | ->]; reflexivity.
Qed.

Lemma complete_items_app f (xs ys : list value) i p (st : exec_state W) :
  complete_items f (xs ++ ys) i p st
  = match complete_items f xs i p st with
    | (Done vs, st1) =>
        match complete_items f ys (i + length xs) p st1 with
        | (Done ws, st2) => (Done (vs ++ ws), st2)
        | (Bubble e, st2) => (Bubble e, st2)
        end
    | (Bubble e, st1) => (Bubble e, st1)
    end.
Proof.
  revert i st. induction xs as [|x xs IH]; intros i st.
  - cbn. rewrite Nat.add_0_r.
    destruct (complete_items f ys i p st) as [[ws|e] st2]; reflexivity.
  - cbn [app complete_items length].
    destruct (f x (p ++ [Index i]) st) as [[v|e] st1]; [|reflexivity].
    rewrite IH. replace (S i + length xs) with (i + S (length xs)) by lia.
    destruct (complete_items f xs (S i) p st1) as [[vs|e] st2]; [|reflexivity].
    destruct (complete_items f ys (i + S (length xs)) p st2) as [[ws|e] st3];
      reflexivity.
Qed.

Lemma exec_fields_app f (xs ys : list selection) T parent p (st : exec_state W) :
  exec_fields f (xs ++ ys) T parent p st
  = match exec_fields f xs T parent p st with
    | (Done kvs, st1) =>
        match exec_fields f ys T parent p st1 with
        | (Done kws, st2) => (Done (kvs ++ kws), st2)
        | (Bubble e, st2) => (Bubble e, st2)
        end
    | (Bubble e, st1) => (Bubble e, st1)
    end.
Proof.
  revert st. induction xs as [|x xs IH]; intros st.
  - cbn. destruct (exec_fields f ys T parent p st) as [[kws|e] st2]; reflexivity.
  - cbn [app exec_fields].
    destruct (f x T parent p st) as [[v|e] st1]; [|reflexivity].
    rewrite IH.
    destruct (exec_fields f xs T parent p st1) as [[kvs|e] st2]; [|reflexivity].
    destruct (exec_fields f ys T parent p st2) as [[kws|e] st3]; reflexivity.
Qed.

(** The relation describes runs of the engine: the failure travels out of
    every position it names, with the path of the failing field. *)
Lemma raises_sound :
  (∀ s T parent p st q e st2,
     raises s T parent p st q e st2 →
     run_field s T parent p st = (Bubble e, st2) ∧ path e = q) ∧
  (∀ t subs v p st q e st2,
     raises_in t subs v p st q e st2 →
     finish subs t v p st = (Bubble e, st2) ∧ path e = q).
Proof.
  apply Raises_both.
  - intros alias name arguments subs T parent p st fd a thrown w calls here
      Hfd Hnn Hargs Hrun.
    split; [|reflexivity].
    rewrite (exec_field_throws _ _ _ _ _ _ _ _ _ _ _ _ _ _ _ _ _ Hfd Hargs Hrun).
    cbn zeta. rewrite Hnn. reflexivity.
  - intros alias name arguments subs T parent p st fd a v w calls here
      Hfd Hnn Hargs Hrun Hv.
    split; [|reflexivity].
    rewrite (exec_field_returns _ _ _ _ _ _ _ _ _ _ _ _ _ _ _ _ _ Hfd Hargs Hrun).
    cbn zeta. rewrite complete_nonNull_absent by assumption.
    unfold absorb. rewrite Hnn. reflexivity.
  - intros alias name arguments subs T parent p st fd a v w calls q e st2 here
      Hfd Hnn Hargs Hrun _ [IH Hpath].
    split; [|exact Hpath].
    rewrite (exec_field_returns _ _ _ _ _ _ _ _ _ _ _ _ _ _ _ _ _ Hfd Hargs Hrun).
    cbn zeta. fold here. rewrite IH. unfold absorb. rewrite Hnn. reflexivity.
  - intros t subs v p st q e st2 _ [IH Hpath]. split; [|exact Hpath].
    cbn [complete]. rewrite IH. reflexivity.
  - intros t subs before item after completed p st st1 q e st2 Hnn Hbefore
      _ [IH Hpath].
    split; [|exact Hpath].
    cbn [complete is_absent]. rewrite complete_items_app, Hbefore.
    cbn [complete_items]. rewrite Nat.add_0_l, IH.
    unfold absorb. rewrite Hnn. reflexivity.
  - intros n tname fields before s after v p st entries st1 q e st2 Hv Hn
      Hbefore _ [IH Hpath].
    split; [|exact Hpath].
    cbn [complete]. rewrite Hv, Hn. unfold exec_object.
    rewrite exec_fields_app, Hbefore. cbn [exec_fields]. rewrite IH.
    reflexivity.
Qed.
End Propagation.

(** C2: let the nullable field [A] be selected between the siblings [before]
    and [after]; if below [A], through non-null positions only, a non-null
    field at path [q] resolves to an absent value or its resolver fails,
    then [A] becomes [null], the siblings keep the values they resolved to,
    and exactly one error is appended for the failure: its path is [q], the
    path of the failing field. *)
Theorem null_propagation {W : Type} (prisma : client W)
    (serialize : type_def → value → settled value) (schema : GraphQLSchema)
    (vars : list (string * value))
    (T : string) (parent : value) (p : list segment) (st : exec_state W)
    (before after : list selection)
    (alias : option string) (name : string)
    (arguments : list (string * arg_value)) (subs : list selection)
    (fd : field_def) (a v : value) (w : W) (calls : list prisma_call)
    (q : list segment) (e : GraphQLError)
    (entries_before entries_after : list (string * value))
    (st_before st_failed st_after : exec_state W) :
  let A := Field alias name arguments subs in
  let here := p ++ [Key (default name alias)] in
  let st_A := record_events [Settled here] (record_failure e st_failed) in
  let run_field := exec_field prisma serialize schema vars in
  lookup_field schema T name = Some fd →
  is_nonNull (type fd) = false →
  exec_fields run_field before T parent p st = (Done entries_before, st_before) →
  argument_values vars name (args fd) arguments = inr a →
  run prisma (resolver_of name fd parent a) (world st_before) = (inr v, w, calls) →
  RaisesIn prisma serialize schema vars (type fd) subs v here
    (resolved_state here w calls st_before) q e st_failed →
  exec_fields run_field after T parent p st_A = (Done entries_after, st_after) →
  run_field A T parent p st_before = (Done VNull, st_A) ∧
  exec_fields run_field (before ++ A :: after) T parent p st
  = (Done (entries_before ++ (default name alias, VNull) :: entries_after),
     st_after) ∧
  failures st_A = failures st_failed ++ [e] ∧
  path e = q.
Proof.
  intros A here st_A run_field Hfd Hnullable Hbefore Hargs Hrun Hraises Hafter.
  destruct (proj2 (raises_sound prisma serialize schema vars) _ _ _ _ _ _ _ _ Hraises)
    as [Hbubble Hpath].
  assert (HA : run_field A T parent p st_before = (Done VNull, st_A)).
  { subst A run_field.
    rewrite (exec_field_returns _ _ _ _ _ _ _ _ _ _ _ _ _ _ _ _ _ Hfd Hargs Hrun).
    cbn zeta. fold here. rewrite Hbubble. unfold absorb. rewrite Hnullable.
    reflexivity. }
  split; [exact HA|]. split; [|split; [reflexivity | exact Hpath]].
  rewrite exec_fields_app, Hbefore. cbn [exec_fields].
  fold run_field. rewrite HA, Hafter. reflexivity.
Qed.

Lemma null_propagation_witness :
  let r := exec_fields
             (exec_field Memory.prisma Memory.serialize createGraphQLSchema [])
             [Sample.leaf "id";
              Sample.node "profile"
                [Sample.leaf "id"; Sample.node "memberType" [Sample.leaf "id"]];
              Sample.leaf "name"]
             "User" Sample.ann [Key "user"] (initial Sample.db) in
  r.1 = Done [("id", VStr "u1"); ("profile", VNull); ("name", VStr "Ann")] ∧
  failures r.2 = [null_violation [Key "user"; Key "profile"; Key "memberType"]].
Proof.
  edestruct (null_propagation Memory.prisma Memory.serialize createGraphQLSchema
               [] "User" Sample.ann [Key "user"] (initial Sample.db)
               [Sample.leaf "id"] [Sample.leaf "name"] None "profile" []
               [Sample.leaf "id"; Sample.node "memberType" [Sample.leaf "id"]])
    as (_ & Hall & _ & _).
  - vm_compute. reflexivity.
  - reflexivity.
  - vm_compute. reflexivity.
  - reflexivity.
  - vm_compute. reflexivity.
  - eapply (In_object _ _ _ _ "Profile" "Profile" _ [Sample.leaf "id"]
              (Field None "memberType" [] [Sample.leaf "id"]) []).
    + reflexivity.
    + vm_compute. reflexivity.
    + vm_compute. reflexivity.
    + eapply Raises_absent.
      * vm_compute. reflexivity.
      * reflexivity.
      * reflexivity.
      * vm_compute. reflexivity.
      * reflexivity.
  - vm_compute. reflexivity.
  - split.
    + exact (f_equal fst Hall).
    + exact (f_equal (λ r, failures r.2) Hall).
Defined.

(* ===================================================================== *)
(** ** The order of events *)
(* ===================================================================== *)

Section TraceFacts.
Context {W : Type}.
Implicit Types (st : exec_state W) (q p : list segment).

Lemma continues_refl q st : continues q st st.
Proof. exists []. split; [symmetry; apply app_nil_r | constructor]. Qed.

Lemma continues_trans q st st1 st2 :
  continues q st st1 → continues q st1 st2 → continues q st st2.
Proof.
  intros (evs1 & H1 & F1) (evs2 & H2 & F2). exists (evs1 ++ evs2). split.
  - rewrite H2, H1, app_assoc. reflexivity.
  - apply Forall_app. split; assumption.
Qed.

Lemma continues_weaken q q' st st' :
  q `prefix_of` q' → continues q' st st' → continues q st st'.
Proof.
  intros Hq (evs & H & F). exists evs. split; [exact H|].
  eapply Forall_impl; [exact F|]. intros ev Hev. cbn in Hev.
  etrans; eassumption.
Qed.

Lemma continues_events q evs st :
  Forall (λ ev, q `prefix_of` event_path ev) evs →
  continues q st (record_events evs st).
Proof. intros F. exists evs. split; [reflexivity | exact F]. Qed.

Lemma continues_same_trace q st st' :
  trace st' = trace st → continues q st st'.
Proof.
  intros H. exists []. split; [rewrite app_nil_r; exact H | constructor].
Qed.

Lemma continues_absorb q st t (r : completion value * exec_state W) :
  continues q st r.2 → continues q st (absorb t r).2.
Proof.
  destruct r as [[v|e] st']; cbn; [tauto|].
  destruct (is_nonNull t); cbn; [tauto|].
  intros H. eapply continues_trans; [exact H|].
  apply continues_same_trace. reflexivity.
Qed.
End TraceFacts.

Section EngineTrace.
Context {W : Type}.
Variable prisma : client W.
Variable serialize : type_def → value → settled value.
Variable schema : GraphQLSchema.
Variable vars : list (string * value).
Implicit Types (st : exec_state W) (q p : list segment).

Abbreviation engine := (exec_field prisma serialize schema vars).

Lemma continues_items f items i p st :
  (∀ item q s, p `prefix_of` q → continues q s (f item q s).2) →
  continues p st (complete_items f items i p st).2.
Proof.
  intros Hf. revert i st. induction items as [|item rest IH]; intros i st.
  - apply continues_refl.
  - cbn [complete_items].
    assert (H1 : continues p st (f item (p ++ [Index i]) st).2).
    { eapply continues_weaken; [|apply Hf]; apply prefix_app_r; reflexivity. }
    destruct (f item (p ++ [Index i]) st) as [[v|e] st1]; [|exact H1].
    specialize (IH (S i) st1).
    destruct (complete_items f rest (S i) p st1) as [[vs|e] st2];
      exact (continues_trans _ _ _ _ H1 IH).
Qed.

Lemma continues_complete rs t v p st :
  (∀ n v q s, continues q s (rs n v q s).2) →
  continues p st (complete serialize schema rs t v p st).2.
Proof.
  intros Hrs. revert v p st.
  induction t as [n|t IH|t IH]; intros v p st; cbn [complete].
  - destruct (is_absent v); [apply continues_refl|].
    destruct (typeMap schema !! n) as [[| | |]|];
      try (destruct (serialize _ v); apply continues_refl);
      [apply Hrs | apply continues_refl].
  - destruct (is_absent v); [apply continues_refl|].
    destruct v; try apply continues_refl.
    match goal with
    | |- context [complete_items ?f ?l 0 p st] =>
        assert (H : continues p st (complete_items f l 0 p st).2);
        [|destruct (complete_items f l 0 p st) as [[vs|e] st1]; exact H]
    end.
    apply continues_items. intros item q s _.
    apply continues_absorb, IH.
  - specialize (IH v p st).
    destruct (complete serialize schema rs t v p st) as [[r|e] st1]; [|exact IH].
    destruct (is_absent r); exact IH.
Qed.

Lemma continues_fields f sels T parent p st :
  Forall (λ s, ∀ T parent p st,
            continues (p ++ [Key (response_key s)]) st (f s T parent p st).2)
         sels →
  continues p st (exec_fields f sels T parent p st).2.
Proof.
  intros Hall. revert st. induction Hall as [|s rest Hs _ IH]; intros st.
  - apply continues_refl.
  - cbn [exec_fields].
    assert (H1 : continues p st (f s T parent p st).2).
    { eapply continues_weaken; [|apply Hs]. apply prefix_app_r. reflexivity. }
    destruct (f s T parent p st) as [[v|e] st1]; [|exact H1].
    specialize (IH st1).
    destruct (exec_fields f rest T parent p st1) as [[kvs|e] st2];
      exact (continues_trans _ _ _ _ H1 IH).
Qed.

(** Every event of a field carries the field's path or a longer one, and a
    declared field ends by settling. *)
Lemma exec_field_trace s T parent p st :
  let here := p ++ [Key (response_key s)] in
  continues here st (engine s T parent p st).2 ∧
  (is_Some (lookup_field schema T (field_name s)) →
   ∃ evs, Forall (λ ev, here `prefix_of` event_path ev) evs ∧
          trace (engine s T parent p st).2 = trace st ++ evs ++ [Settled here]).
Proof.
  revert T parent p st.
  induction s as [alias name arguments subs IH] using selection_tree_ind.
  intros T parent p st here. cbn [exec_field field_name].
  destruct (lookup_field schema T name) as [fd|];
    [|split; [apply continues_refl | intros [? [=]]]].
  fold here.
  assert (Hinner : continues here st
                     (absorb (type fd)
                        (resolve_and_complete prisma serialize schema vars
                           (exec_object engine subs) name fd arguments
                           parent here st)).2).
  { apply continues_absorb. unfold resolve_and_complete.
    destruct (argument_values vars name (args fd) arguments) as [e|a];
      [apply continues_refl|].
    cbn [world record_events].
    destruct (run prisma (resolver_of name fd parent a) (world st))
      as [[r w] calls].
    assert (H1 : continues here st (resolved_state here w calls st)).
    { exists (Started here :: (Called here <$> calls)). split.
      - cbn. rewrite <- app_assoc. reflexivity.
      - constructor; [reflexivity|].
        apply Forall_fmap, Forall_forall. intros c _. cbn. reflexivity. }
    destruct r as [e|v]; [exact H1|].
    eapply continues_trans; [exact H1|].
    apply continues_complete. intros n v' q s. unfold exec_object.
    assert (H2 : continues q s (exec_fields engine subs n v' q s).2).
    { apply continues_fields. eapply Forall_impl; [exact IH|].
      intros sub Hsub T' parent' p' st'. apply Hsub. }
    destruct (exec_fields engine subs n v' q s) as [[kvs|e] s2]; exact H2. }
  destruct Hinner as (evs & Htrace & Hevs). cbn [snd fst]. split.
  - exists (evs ++ [Settled here]). split.
    + cbn [trace record_events].
      change (p ++ [Key (default name alias)]) with here.
      rewrite Htrace, app_assoc. reflexivity.
    + apply Forall_app. split; [exact Hevs|].
      constructor; [reflexivity | constructor].
  - intros _. exists evs. split; [exact Hevs|].
    cbn [trace record_events].
    change (p ++ [Key (default name alias)]) with here.
    rewrite Htrace, app_assoc. reflexivity.
Qed.

Lemma prefix_under (k : string) (ev : event) :
  [Key k] `prefix_of` event_path ev → under k ev.
Proof. intros [rest H]. unfold under. rewrite H. reflexivity. Qed.

(** The trace of the root fields is cut into their segments. *)
Lemma exec_fields_segments sels root parent st :
  ∃ evs,
    trace (exec_fields engine sels root parent [] st).2 = trace st ++ evs ∧
    Segments (λ name, is_Some (lookup_field schema root name)) sels evs.
Proof.
  revert st. induction sels as [|s rest IH]; intros st.
  - exists []. split; [cbn; rewrite app_nil_r; reflexivity | constructor].
  - cbn [exec_fields].
    destruct (exec_field_trace s root parent [] st) as [(evs & Htrace & Hevs) Hsettles].
    cbn [app] in *.
    assert (Hseg : ∀ evs_rest,
              Segments (λ name, is_Some (lookup_field schema root name)) rest evs_rest →
              Segments (λ name, is_Some (lookup_field schema root name))
                (s :: rest) (evs ++ evs_rest)).
    { intros evs_rest Hrest. constructor; [| |exact Hrest].
      - eapply Forall_impl; [exact Hevs|]. intros ev. apply prefix_under.
      - intros Hdecl. destruct (Hsettles Hdecl) as (evs0 & _ & Htrace0).
        rewrite Htrace in Htrace0. apply app_inv_head in Htrace0.
        rewrite Htrace0. apply in_or_app. right. now left. }
    destruct (engine s root parent [] st) as [[v|e] st1]; cbn [snd] in *.
    + destruct (IH st1) as (evs_rest & Hrest & Hsegs).
      exists (evs ++ evs_rest). split; [|exact (Hseg _ Hsegs)].
      destruct (exec_fields engine rest root parent [] st1) as [[kvs|e] st2];
        cbn [snd] in *; rewrite Hrest, Htrace, app_assoc; reflexivity.
    + exists (evs ++ []). split; [rewrite app_nil_r; exact Htrace|].
      apply Hseg. constructor.
Qed.
End EngineTrace.

Section SegmentFacts.
Variable declared : string → Prop.

Lemma under_unique (k k' : string) (ev : event) :
  under k ev → under k' ev → k = k'.
Proof. unfold under. intros H1 H2. congruence. Qed.

Lemma segments_owned sels evs :
  Segments declared sels evs →
  Forall (λ ev, ∃ s, s ∈ sels ∧ under (response_key s) ev) evs.
Proof.
  induction 1 as [sels|s rest evs evs_rest Hevs _ _ IH]; [constructor|].
  apply Forall_app. split.
  - eapply Forall_impl; [exact Hevs|]. intros ev Hev.
    exists s. split; [left | exact Hev].
  - eapply Forall_impl; [exact IH|]. intros ev (s' & Hs' & Hev).
    exists s'. split; [right; exact Hs' | exact Hev].
Qed.

Lemma app_split_outside {A : Type} (xs ys left right : list A) (x : A) :
  xs ++ ys = left ++ x :: right → x ∉ xs →
  ∃ left', left = xs ++ left' ∧ ys = left' ++ x :: right.
Proof.
  revert left. induction xs as [|a xs IH]; intros left Heq Hx.
  - exists left. split; [reflexivity | exact Heq].
  - destruct left as [|l left]; cbn in Heq; injection Heq as -> Heq.
    + exfalso. apply Hx. left.
    + destruct (IH left Heq) as (left' & -> & ->);
        [intros Hin; apply Hx; right; exact Hin|].
      exists left'. split; reflexivity.
Qed.

(** In a segmented trace with distinct response keys, when a later field
    starts, every earlier declared field has settled and none of its
    events follows. *)
Lemma segments_ordered sels evs :
  Segments declared sels evs →
  NoDup (response_key <$> sels) →
  ∀ i j a b left right,
    sels !! i = Some a → sels !! j = Some b → i < j →
    declared (field_name a) →
    evs = left ++ Started [Key (response_key b)] :: right →
    In (Settled [Key (response_key a)]) left ∧
    Forall (λ ev, ¬ under (response_key a) ev)
           (Started [Key (response_key b)] :: right).
Proof.
  induction 1 as [sels|s rest evs evs_rest Hevs Hsettled Hrest IH];
    intros Hkeys i j a b left right Ha Hb Hij Hdecl Heq.
  - destruct left; discriminate.
  - cbn in Hkeys. apply NoDup_cons in Hkeys as [Hfresh Hkeys].
    destruct j as [|j]; [lia|]. cbn in Hb.
    assert (Hb_in : response_key b ∈ response_key <$> rest).
    { apply list_elem_of_fmap_2. eapply list_elem_of_lookup_2. exact Hb. }
    assert (Hout : Started [Key (response_key b)] ∉ evs).
    { intros Hin. apply Hfresh.
      rewrite Forall_forall in Hevs. specialize (Hevs _ Hin).
      unfold under in Hevs. cbn in Hevs. injection Hevs as <-. exact Hb_in. }
    destruct (app_split_outside _ _ _ _ _ Heq Hout) as (left' & -> & Hrest_eq).
    destruct i as [|i]; cbn in Ha.
    + injection Ha as ->. split.
      * apply in_or_app. left. exact (Hsettled Hdecl).
      * pose proof (segments_owned _ _ Hrest) as Howned.
        rewrite Hrest_eq in Howned. apply Forall_app in Howned as [_ Howned].
        eapply Forall_impl; [exact Howned|].
        intros ev (s' & Hs' & Hev) Hev'. apply Hfresh.
        rewrite (under_unique _ _ _ Hev' Hev).
        apply list_elem_of_fmap_2. exact Hs'.
    + destruct (IH Hkeys i j a b left' right Ha Hb ltac:(lia) Hdecl Hrest_eq)
        as [Hin Hall].
      split; [apply in_or_app; right; exact Hin | exact Hall].
Qed.
End SegmentFacts.

(** C5: in a mutation whose root fields have distinct response keys, when
    the resolver of a root field starts, every declared root field selected
    before it has settled, resolver and subtree, and no event of such a
    field comes later: root fields run one after the other, in document
    order. *)
Theorem mutation_fields_run_in_order {W : Type} (prisma : client W)
    (serialize : type_def → value → settled value) (schema : GraphQLSchema)
    (vars : list (string * value)) (root : string) (sels : list selection)
    (w : W) (i j : nat) (a b : selection) (left right : list event) :
  root_type schema OpMutation = Some root →
  NoDup (response_key <$> sels) →
  sels !! i = Some a → sels !! j = Some b → i < j →
  is_Some (lookup_field schema root (field_name a)) →
  (execute prisma serialize schema vars
     {| operation := OpMutation; selections := sels |} w).2
  = left ++ Started [Key (response_key b)] :: right →
  In (Settled [Key (response_key a)]) left ∧
  Forall (λ ev, ¬ under (response_key a) ev)
         (Started [Key (response_key b)] :: right).
Proof.
  intros Hroot Hkeys Ha Hb Hij Hdecl Htrace.
  destruct (exec_fields_segments prisma serialize schema vars sels root
              VUndefined (initial w)) as (evs & Hevs & Hsegs).
  apply (segments_ordered _ sels evs Hsegs Hkeys i j a b left right Ha Hb Hij Hdecl).
  rewrite <- Htrace. unfold execute. cbn [operation selections].
  rewrite Hroot. unfold exec_object.
  destruct (exec_fields _ sels root VUndefined [] (initial w)) as [[kvs|e] st];
    cbn [snd] in *; exact (eq_sym Hevs).
Qed.

Lemma mutation_fields_run_in_order_witness :
  let subscribed :=
    [Started [Key "subscribeTo"];
     Called [Key "subscribeTo"]
       (PrismaCall Prisma.subscribersOnAuthors Prisma.create
          (data_ (VObj [("subscriberId", VStr "u1"); ("authorId", VStr "u2")])));
     Settled [Key "subscribeTo"]] in
  let removed :=
    [Called [Key "deleteUser"]
       (PrismaCall Prisma.user Prisma.delete (where_ (VObj [("id", VStr "u2")])));
     Settled [Key "deleteUser"]] in
  In (Settled [Key "subscribeTo"]) subscribed ∧
  Forall (λ ev, ¬ under "subscribeTo" ev) (Started [Key "deleteUser"] :: removed).
Proof.
  intros subscribed removed.
  apply (mutation_fields_run_in_order Memory.prisma Memory.serialize
           createGraphQLSchema [] "Mutations" [Sample.subscribe; Sample.remove]
           Sample.db 0 1 Sample.subscribe Sample.remove subscribed removed).
  - reflexivity.
  - refine (bool_decide_unpack _ _). vm_compute. exact I.
  - reflexivity.
  - reflexivity.
  - lia.
  - eexists. vm_compute. reflexivity.
  - vm_compute. reflexivity.
Defined.

Lemma schema_surface_witness :
  (collection_of Prisma.post ∧ lookup_of Prisma.post) ∧
  operates Mutations Prisma.post Prisma.create ∧
  operates Mutations Prisma.post Prisma.update ∧
  operates Mutations Prisma.post Prisma.delete.
Proof.
  split.
  - apply (proj1 schema_surface Prisma.post). cbn. tauto.
  - apply (proj1 (proj2 schema_surface) Prisma.post). cbn. tauto.
Defined.

(* ===================================================================== *)
(** ** Every resolver, run against any client *)
(* ===================================================================== *)

(** Splits [In T resolving_types]-like hypotheses into their cases. *)
Ltac type_cases H :=
  cbn in H; repeat (destruct H as [H|H]; [subst|]); [..|contradiction].

(** Settles the run of a single-call resolver by the answer of the client. *)
Ltac by_answer prisma w :=
  cbn;
  match goal with
  | |- context [prisma ?c w] => destruct (prisma c w) as [[[[] ?]|?] ?]
  end; cbn; try reflexivity.

(** X1: apart from the two subscription resolvers, every resolver of the
    schema issues exactly one repository call, whatever the client answers:
    no retry, no existence check before a write, no re-read after it. *)
Theorem one_call_per_resolver (T : type_def) (name : string) (fd : field_def)
    (f : resolver) :
  In T resolving_types →
  In (name, fd) (fields_of T) →
  resolve fd = Some f →
  name ≠ "userSubscribedTo" → name ≠ "subscribedToUser" →
  ∀ (W : Type) (prisma : client W) (parent a : value) (w : W),
    length (run prisma (f parent a) w).2 = 1.
Proof.
  intros HT HIn Hres Hn1 Hn2.
  type_cases HT; field_cases HIn; try discriminate; try congruence;
    cbn in Hres; injection Hres as <-; intros W prisma parent a w;
    by_answer prisma w.
Qed.

Lemma one_call_per_resolver_witness :
  length (run Memory.prisma
            (delete_resolver Prisma.user "User deleted" "Failed to delete user"
               VUndefined (VObj [("id", VStr "u2")])) Sample.db).2 = 1.
Proof.
  refine (one_call_per_resolver Mutations "deleteUser"
            (with_args (nonNull GraphQLString) [("id", nonNull UUIDType)]
               (delete_resolver Prisma.user "User deleted" "Failed to delete user"))
            _ _ _ eq_refl _ _ Memory.store Memory.prisma VUndefined
            (VObj [("id", VStr "u2")]) Sample.db).
  - cbn. tauto.
  - apply (assoc_In "deleteUser"). reflexivity.
  - discriminate.
  - discriminate.
Defined.

(** X2: a guarded resolver (every mutation field, the four by-id query
    fields) settles as its single repository call does: it fulfils exactly
    when the call fulfils and leaves the store the call left; whatever the
    call rejected with, what the resolver throws is an [Error]. *)
Theorem guarded_resolver_follows_call (T : type_def) (name : string)
    (fd : field_def) (f : resolver) :
  guarded T name →
  In (name, fd) (fields_of T) →
  resolve fd = Some f →
  ∀ (W : Type) (prisma : client W) (parent a : value) (w : W),
    ∃ c, first_call (f parent a) = Some c ∧
         (run prisma (f parent a) w).1.2 = (prisma c w).2 ∧
         match (prisma c w).1, (run prisma (f parent a) w).1.1 with
         | inr _, inr _ => True
         | inl _, inl thrown => instanceof_Error thrown = true
         | _, _ => False
         end.
Proof.
  intros [->|[-> Hname]] HIn Hres.
  - field_cases HIn; cbn in Hres; injection Hres as <-;
      intros W prisma parent a w; eexists; (split; [reflexivity|]);
      by_answer prisma w; split; reflexivity.
  - field_cases HIn; cbn in Hname;
      try (exfalso; intuition discriminate);
      cbn in Hres; injection Hres as <-;
      intros W prisma parent a w; eexists; (split; [reflexivity|]);
      by_answer prisma w; split; reflexivity.
Qed.

Lemma guarded_resolver_follows_call_witness :
  ∃ c, first_call (fetch_by_id Prisma.user "user" VUndefined
                     (VObj [("id", VStr "u7")])) = Some c ∧
       (run Memory.prisma
          (fetch_by_id Prisma.user "user" VUndefined (VObj [("id", VStr "u7")]))
          Sample.db).1.2 = (Memory.prisma c Sample.db).2 ∧
       match (Memory.prisma c Sample.db).1,
             (run Memory.prisma
                (fetch_by_id Prisma.user "user" VUndefined
                   (VObj [("id", VStr "u7")])) Sample.db).1.1 with
       | inr _, inr _ => True
       | inl _, inl thrown => instanceof_Error thrown = true
       | _, _ => False
       end.
Proof.
  refine (guarded_resolver_follows_call RootQueryType "user"
            (with_args (Named "User") [("id", nonNull UUIDType)]
               (fetch_by_id Prisma.user "user"))
            _ _ _ eq_refl Memory.store Memory.prisma VUndefined
            (VObj [("id", VStr "u7")]) Sample.db).
  - right. split; [reflexivity | cbn; tauto].
  - apply (assoc_In "user"). reflexivity.
Defined.

(** X3: when the repository call fulfils, the create and change mutations
    and the by-id queries return the repository's value as it is ([null]
    included); the delete, subscribe and unsubscribe mutations return a text
    of their own that depends neither on the arguments nor on what the
    repository returned. *)
Theorem resolver_answers (T : type_def) (name : string) (fd : field_def)
    (f : resolver) :
  guarded T name →
  In (name, fd) (fields_of T) →
  resolve fd = Some f →
  (type fd ≠ nonNull GraphQLString →
   ∀ (W : Type) (prisma : client W) (parent a : value) (w w1 : W) c v,
     first_call (f parent a) = Some c → prisma c w = (inr v, w1) →
     (run prisma (f parent a) w).1.1 = inr v) ∧
  (type fd = nonNull GraphQLString →
   ∃ text,
     ∀ (W : Type) (prisma : client W) (parent a : value) (w w1 : W) c v,
       first_call (f parent a) = Some c → prisma c w = (inr v, w1) →
       (run prisma (f parent a) w).1.1 = inr (VStr text)).
Proof.
  intros [->|[-> Hname]] HIn Hres.
  - field_cases HIn; cbn in Hres; injection Hres as <-;
      (split; [intros Hty; try (exfalso; apply Hty; reflexivity)
              | intros Hty; try discriminate; eexists]);
      intros W prisma parent a w w1 c v [= <-] Hc; cbn; rewrite Hc; reflexivity.
  - field_cases HIn; cbn in Hname;
      try (exfalso; intuition discriminate);
      cbn in Hres; injection Hres as <-;
      (split; [intros _ | intros Hty; discriminate]);
      intros W prisma parent a w w1 c v [= <-] Hc; cbn; rewrite Hc; reflexivity.
Qed.

Lemma resolver_answers_witness :
  (run Memory.prisma
     (delete_resolver Prisma.user "User deleted" "Failed to delete user"
        VUndefined (VObj [("id", VStr "u2")])) Sample.db).1.1
  = inr (VStr "User deleted").
Proof.
  edestruct (resolver_answers Mutations "deleteUser"
               (with_args (nonNull GraphQLString) [("id", nonNull UUIDType)]
                  (delete_resolver Prisma.user "User deleted"
                     "Failed to delete user"))
               (delete_resolver Prisma.user "User deleted" "Failed to delete user"))
    as [_ Hconst].
  { left. reflexivity. }
  { apply (assoc_In "deleteUser"). reflexivity. }
  { reflexivity. }
  destruct (Hconst eq_refl) as [text Htext].
  pose proof (Htext Memory.store Memory.prisma VUndefined
                (VObj [("id", VStr "u2")]) Sample.db _ _ _ eq_refl eq_refl) as H.
  pose proof (Htext unit (λ _ w, (inr VNull, w)) VUndefined VNull tt tt _ VNull
                eq_refl eq_refl) as H0.
  cbn in H0. injection H0 as <-. exact H.
Defined.

(* ===================================================================== *)
(** ** The subscription resolvers, whatever the lookups answer *)
(* ===================================================================== *)

Lemma run_subscription_settles {W : Type} (prisma : client W)
    (filter_key lookup_key : string) (user a : value) (w : W) :
  let edges_of_user :=
    PrismaCall Prisma.subscribersOnAuthors Prisma.findMany
      (where_ (VObj [(filter_key, get "id" user)])) in
  run prisma (subscription_resolver filter_key lookup_key user a) w
  = match prisma edges_of_user w with
    | (inl e, w1) => (inl e, w1, [edges_of_user])
    | (inr (VList edges), w1) =>
        let lookups := counterpart_lookups lookup_key edges in
        let '(rs, w2) := answers prisma lookups w1 in
        (match first_rejection rs with
         | Some e => inl e
         | None => inr (VList (fulfilled rs))
         end, w2, edges_of_user :: lookups)
    | (inr _, w1) =>
        (inl (Error "subscribes.map is not a function"), w1, [edges_of_user])
    end.
Proof.
  intros edges_of_user. unfold subscription_resolver, await.
  cbn [bind run]. fold edges_of_user.
  destruct (prisma edges_of_user w) as [[e|v] w1]; [reflexivity|].
  cbn [bind]. destruct v; try reflexivity.
  unfold Promise_all. rewrite run_call_all.
  destruct (answers prisma (counterpart_lookups lookup_key items) w1) as [rs w2].
  destruct (first_rejection rs); cbn; rewrite app_nil_r; reflexivity.
Qed.



(** X5: when the edge query rejects, a subscription resolver rejects with
    that very error, not wrapped and not replaced, and issues no user
    lookup; when it fulfils with no edge, the resolver returns the empty
    list, again without any lookup. *)
Theorem subscription_without_edges (name : string) (fd : field_def)
    (f : resolver) :
  In name ["userSubscribedTo"; "subscribedToUser"] →
  assoc name (fields_of User) = Some fd →
  resolve fd = Some f →
  ∀ (W : Type) (prisma : client W) (w w1 : W) (user a : value),
    ∃ edges_of_user,
      first_call (f user a) = Some edges_of_user ∧
      (∀ e, prisma edges_of_user w = (inl e, w1) →
            run prisma (f user a) w = (inl e, w1, [edges_of_user])) ∧
      (prisma edges_of_user w = (inr (VList []), w1) →
       run prisma (f user a) w = (inr (VList []), w1, [edges_of_user])).
Proof.
  intros Hname Hfd Hres W prisma w w1 user a.
  cbn in Hname. destruct Hname as [<-|[<-|[]]];
    cbn in Hfd; injection Hfd as <-; cbn in Hres; injection Hres as <-;
    eexists; (split; [reflexivity|]); split.
  all: try (intros e He; rewrite run_subscription_settles, He; reflexivity).
  all: intros He; rewrite run_subscription_settles, He; reflexivity.
Qed.

Lemma subscription_without_edges_witness :
  run Memory.prisma
    (subscription_resolver "subscriberId" "authorId" Sample.ann VUndefined)
    Sample.db
  = (inr (VList []), Sample.db,
     [PrismaCall Prisma.subscribersOnAuthors Prisma.findMany
        (where_ (VObj [("subscriberId", VStr "u1")]))]).
Proof.
  destruct (subscription_without_edges "userSubscribedTo" _ _
              (or_introl eq_refl) eq_refl eq_refl Memory.store Memory.prisma
              Sample.db Sample.db Sample.ann VUndefined)
    as (c & Hc & _ & Hempty).
  cbn in Hc. injection Hc as <-. exact (Hempty eq_refl).
Defined.

(* ===================================================================== *)
(** ** What resolvers read, and what they never do *)
(* ===================================================================== *)

Lemma subscription_resolver_reads {W : Type} (prisma : client W)
    (filter_key lookup_key : string) (user a : value) (w : W) :
  Forall (λ c, is_read c = true)
         (run prisma (subscription_resolver filter_key lookup_key user a) w).2.
Proof.
  rewrite run_subscription_settles. cbn zeta.
  destruct (prisma _ w) as [[e|v] w1]; [repeat constructor|].
  destruct v; try (repeat constructor; fail).
  destruct (answers prisma (counterpart_lookups lookup_key items) w1) as [rs w2].
  cbn [snd]. constructor; [reflexivity|].
  unfold counterpart_lookups. apply Forall_fmap, Forall_forall.
  intros edge _. reflexivity.
Qed.

(** X6: the resolvers of the query root and of the [User] and [Profile]
    types only ever issue [findMany] and [findFirst] calls, on every client
    and every input: nothing on the query side creates, updates or
    deletes. *)
Theorem query_side_resolvers_only_read (T : type_def) (name : string)
    (fd : field_def) (f : resolver) :
  In T [RootQueryType; User; Profile] →
  In (name, fd) (fields_of T) →
  resolve fd = Some f →
  ∀ (W : Type) (prisma : client W) (parent a : value) (w : W),
    Forall (λ c, is_read c = true) (run prisma (f parent a) w).2.
Proof.
  intros HT HIn Hres.
  type_cases HT; field_cases HIn; try discriminate;
    cbn in Hres; injection Hres as <-; intros W prisma parent a w;
    try apply subscription_resolver_reads;
    by_answer prisma w; repeat constructor.
Qed.

Lemma query_side_resolvers_only_read_witness :
  Forall (λ c, is_read c = true)
    (run Memory.prisma
       (subscription_resolver "subscriberId" "authorId" Sample.bob VUndefined)
       Sample.db).2.
Proof.
  refine (query_side_resolvers_only_read User "userSubscribedTo"
            (resolved (nonNullListOf "User")
               (subscription_resolver "subscriberId" "authorId"))
            _ _ _ eq_refl Memory.store Memory.prisma Sample.bob VUndefined
            Sample.db).
  - cbn. tauto.
  - apply (assoc_In "userSubscribedTo"). reflexivity.
Defined.

(** Rewrites every argument read with the agreement on declared names. *)
Ltac by_declared H :=
  cbn in H; cbn;
  repeat match goal with
         | |- context [get ?k ?a] =>
             rewrite (H k) by (cbn; tauto)
         end;
  reflexivity.

(** X7: a root resolver uses nothing of its input but the arguments its
    field declares: two invocations that agree on the declared arguments
    run the same program, whatever else the argument objects hold and
    whatever the parent values are.  So every value that reaches the
    repository went through the field's argument declaration. *)
Theorem root_resolvers_use_declared_arguments (T : type_def) (name : string)
    (fd : field_def) (f : resolver) :
  In T [RootQueryType; Mutations] →
  In (name, fd) (fields_of T) →
  resolve fd = Some f →
  ∀ parent parent' a a',
    (∀ arg, In arg (declared_args fd) → get arg a = get arg a') →
    f parent a = f parent' a'.
Proof.
  intros HT HIn Hres.
  type_cases HT; field_cases HIn;
    cbn in Hres; injection Hres as <-; intros parent parent' a a' H;
    by_declared H.
Qed.

Lemma root_resolvers_use_declared_arguments_witness :
  change_resolver Prisma.post "Failed to update post" VNull
    (VObj [("id", VStr "t1"); ("dto", VObj [("title", VStr "Hi")])])
  = change_resolver Prisma.post "Failed to update post" (VStr "other parent")
      (VObj [("dto", VObj [("title", VStr "Hi")]); ("extra", VBool true);
             ("id", VStr "t1")]).
Proof.
  refine (root_resolvers_use_declared_arguments Mutations "changePost"
            (with_args (nonNull Post)
               [("id", nonNull UUIDType); ("dto", nonNull ChangePostInput)]
               (change_resolver Prisma.post "Failed to update post"))
            _ _ _ eq_refl _ _ _ _ _).
  - cbn. tauto.
  - apply (assoc_In "changePost"). reflexivity.
  - intros arg Harg. cbn in Harg.
    destruct Harg as [<-|[<-|[]]]; reflexivity.
Defined.

(** X8: a resolver of a [User] field uses nothing of its input but the
    parent's [id], and the resolver of [Profile.memberType] nothing but the
    parent's [memberTypeId]; arguments are ignored. *)
Theorem nested_resolvers_use_parent_key (T : type_def) (key name : string)
    (fd : field_def) (f : resolver) :
  In (T, key) [(User, "id"); (Profile, "memberTypeId")] →
  In (name, fd) (fields_of T) →
  resolve fd = Some f →
  ∀ parent parent' a a',
    get key parent = get key parent' →
    f parent a = f parent' a'.
Proof.
  intros HT HIn Hres. cbn in HT.
  destruct HT as [[= <- <-]|[[= <- <-]|[]]]; field_cases HIn; try discriminate;
    cbn in Hres; injection Hres as <-; intros parent parent' a a' H;
    cbn; unfold subscription_resolver; cbn; rewrite H; reflexivity.
Qed.

Lemma nested_resolvers_use_parent_key_witness :
  subscription_resolver "authorId" "subscriberId" Sample.ann VUndefined
  = subscription_resolver "authorId" "subscriberId" (VObj [("id", VStr "u1")])
      (VObj [("first", VNum 10)]).
Proof.
  refine (nested_resolvers_use_parent_key User "id" "subscribedToUser"
            (resolved (nonNullListOf "User")
               (subscription_resolver "authorId" "subscriberId"))
            _ _ _ eq_refl Sample.ann (VObj [("id", VStr "u1")]) VUndefined
            (VObj [("first", VNum 10)]) eq_refl).
  - left. reflexivity.
  - apply (assoc_In "subscribedToUser"). reflexivity.
Defined.

(** X9: the writers and the readers of the subscription relation agree on
    the edge.  The object [subscribeTo] hands to [create] is the compound
    key [unsubscribeFrom] deletes by; it carries the subscriber's id under
    the key [userSubscribedTo] filters on and the author's id under the key
    it looks up, and conversely for [subscribedToUser]. *)
Theorem subscription_keys_agree (parent args subscriber author : value)
    (f g : resolver) :
  resolve <$> assoc "userSubscribedTo" (fields_of User) = Some (Some f) →
  resolve <$> assoc "subscribedToUser" (fields_of User) = Some (Some g) →
  get "userId" args = get "id" subscriber →
  get "authorId" args = get "id" author →
  ∃ edge,
    first_call (subscribeTo_resolve parent args)
    = Some (PrismaCall Prisma.subscribersOnAuthors Prisma.create (data_ edge)) ∧
    first_call (unsubscribeFrom_resolve parent args)
    = Some (PrismaCall Prisma.subscribersOnAuthors Prisma.delete
              (where_ (VObj [("subscriberId_authorId", edge)]))) ∧
    (∀ W (prisma : client W) (w w1 : W) a,
       prisma (PrismaCall Prisma.subscribersOnAuthors Prisma.findMany
                 (where_ (VObj [("subscriberId", get "subscriberId" edge)]))) w
       = (inr (VList [edge]), w1) →
       (run prisma (f subscriber a) w).2
       = [PrismaCall Prisma.subscribersOnAuthors Prisma.findMany
            (where_ (VObj [("subscriberId", get "subscriberId" edge)]));
          PrismaCall Prisma.user Prisma.findFirst
            (where_ (VObj [("id", get "id" author)]))]) ∧
    (∀ W (prisma : client W) (w w1 : W) a,
       prisma (PrismaCall Prisma.subscribersOnAuthors Prisma.findMany
                 (where_ (VObj [("authorId", get "authorId" edge)]))) w
       = (inr (VList [edge]), w1) →
       (run prisma (g author a) w).2
       = [PrismaCall Prisma.subscribersOnAuthors Prisma.findMany
            (where_ (VObj [("authorId", get "authorId" edge)]));
          PrismaCall Prisma.user Prisma.findFirst
            (where_ (VObj [("id", get "id" subscriber)]))]).
Proof.
  intros [= <-] [= <-] Huser Hauthor.
  set (edge := VObj [("subscriberId", get "userId" args);
                     ("authorId", get "authorId" args)]).
  assert (Hs : get "subscriberId" edge = get "id" subscriber)
    by (rewrite <- Huser; reflexivity).
  assert (Ha : get "authorId" edge = get "id" author)
    by (rewrite <- Hauthor; reflexivity).
  exists edge. split; [reflexivity|]. split; [reflexivity|].
  rewrite Hs, Ha. clearbody edge. split.
  - intros W prisma w w1 a Hedges. rewrite run_subscription_settles.
    cbn zeta. rewrite Hedges.
    destruct (answers prisma (counterpart_lookups "authorId" [edge]) w1)
      as [rs w2].
    cbn [snd counterpart_lookups fmap list_fmap]. rewrite Ha. reflexivity.
  - intros W prisma w w1 a Hedges. rewrite run_subscription_settles.
    cbn zeta. rewrite Hedges.
    destruct (answers prisma (counterpart_lookups "subscriberId" [edge]) w1)
      as [rs w2].
    cbn [snd counterpart_lookups fmap list_fmap]. rewrite Hs. reflexivity.
Qed.

Lemma subscription_keys_agree_witness :
  ∃ edge,
    first_call (subscribeTo_resolve VUndefined
                  (VObj [("userId", VStr "u2"); ("authorId", VStr "u1")]))
    = Some (PrismaCall Prisma.subscribersOnAuthors Prisma.create (data_ edge)) ∧
    first_call (unsubscribeFrom_resolve VUndefined
                  (VObj [("userId", VStr "u2"); ("authorId", VStr "u1")]))
    = Some (PrismaCall Prisma.subscribersOnAuthors Prisma.delete
              (where_ (VObj [("subscriberId_authorId", edge)]))).
Proof.
  destruct (subscription_keys_agree VUndefined
              (VObj [("userId", VStr "u2"); ("authorId", VStr "u1")])
              Sample.bob Sample.ann _ _ eq_refl eq_refl eq_refl eq_refl)
    as (edge & Hcreate & Hdelete & _).
  exists edge. split; assumption.
Defined.

(* ===================================================================== *)
(** ** The declared schemas are well formed *)
(* ===================================================================== *)

Lemma well_formed_types (schema : GraphQLSchema) (n : string) (t : type_def) :
  well_formed schema = true →
  typeMap schema !! n = Some t →
  type_well_formed schema n t = true.
Proof.
  unfold well_formed. intros H Hn.
  apply andb_prop in H as [H _]. apply andb_prop in H as [H _].
  rewrite forallb_forall in H.
  apply (H (n, t)). apply list_elem_of_In, elem_of_map_to_list. exact Hn.
Qed.

Lemma schema_files_well_formed (schema : GraphQLSchema) :
  In schema schema_files → well_formed schema = true.
Proof. intros [<-|[<-|[]]]; vm_compute; reflexivity. Qed.

(** X10: in both schema files every type is filed under its own name with
    distinct field names; every type a field refers to is declared and is a
    scalar, enum or object type; every type an argument or an input field
    refers to is declared and is a scalar, enum or input object type; the
    roots are object types. *)
Theorem schema_references_resolve (schema : GraphQLSchema) :
  In schema schema_files →
  is_object schema (query schema) = true ∧
  (∀ root, mutation schema = Some root → is_object schema root = true) ∧
  (∀ n t, typeMap schema !! n = Some t → type_name t = n) ∧
  (∀ T name fd,
     lookup_field schema T name = Some fd →
     output_kind schema (named_type (type fd)) = true ∧
     ∀ arg d, In (arg, d) (args fd) →
              input_kind schema (named_type (arg_type d)) = true) ∧
  (∀ n tname fields field t,
     typeMap schema !! n = Some (GraphQLInputObjectType tname fields) →
     In (field, t) fields →
     input_kind schema (named_type t) = true).
Proof.
  intros Hschema. pose proof (schema_files_well_formed schema Hschema) as Hwf.
  pose proof Hwf as Hroots. unfold well_formed in Hroots.
  apply andb_prop in Hroots as [Hroots Hmutation].
  apply andb_prop in Hroots as [_ Hquery].
  split; [exact Hquery|]. split; [|split; [|split]].
  - intros root Hroot. rewrite Hroot in Hmutation. exact Hmutation.
  - intros n t Hn. pose proof (well_formed_types schema n t Hwf Hn) as H.
    apply andb_prop in H as [H _]. apply String.eqb_eq. exact H.
  - intros T name fd Hfd. unfold lookup_field in Hfd.
    destruct (typeMap schema !! T) as [[| |tname fields|]|] eqn:HT;
      try discriminate.
    pose proof (well_formed_types schema T _ Hwf HT) as H.
    apply andb_prop in H as [_ H]. apply andb_prop in H as [_ H].
    rewrite forallb_forall in H.
    specialize (H (name, fd) (assoc_In _ _ _ Hfd)). cbn in H.
    apply andb_prop in H as [Hout Hargs]. split; [exact Hout|].
    intros arg d Hd. rewrite forallb_forall in Hargs.
    exact (Hargs (arg, d) Hd).
  - intros n tname fields field t Hn Hfield.
    pose proof (well_formed_types schema n _ Hwf Hn) as H.
    apply andb_prop in H as [_ H]. apply andb_prop in H as [_ H].
    rewrite forallb_forall in H. exact (H (field, t) Hfield).
Qed.

Lemma schema_references_resolve_witness :
  is_object createGraphQLSchema (query createGraphQLSchema) = true ∧
  output_kind createGraphQLSchema "User" = true.
Proof.
  pose proof (schema_references_resolve createGraphQLSchema
                (or_introl eq_refl)) as (Hq & _ & _ & Hfields & _).
  split; [exact Hq|].
  exact (proj1 (Hfields "Mutations" "createUser" _ eq_refl)).
Defined.

(* ===================================================================== *)
(** ** Queries of every depth *)
(* ===================================================================== *)

Lemma schema_files_query_side (schema : GraphQLSchema) :
  In schema schema_files → query_side schema.
Proof.
  intros [<-|[<-|[]]]; (split; [reflexivity|]);
    repeat (constructor; [vm_compute; reflexivity|]); constructor.
Qed.

Lemma query_side_declares (schema : GraphQLSchema) (T : type_def) :
  query_side schema → In T (scalars ++ output_types) →
  typeMap schema !! type_name T = Some T.
Proof.
  intros [_ H] HT. rewrite Forall_forall in H.
  apply H, list_elem_of_In, HT.
Qed.

Section DeepQueries.
Variable scalar_accepts : string → value → bool.
Variable schema : GraphQLSchema.
Hypothesis Hside : query_side schema.

Lemma typeMap_User : typeMap schema !! "User" = Some User.
Proof using Hside. apply (query_side_declares schema User Hside). cbn. tauto. Qed.

Lemma typeMap_UUID : typeMap schema !! "UUID" = Some UUIDType.
Proof using Hside. apply (query_side_declares schema UUIDType Hside). cbn. tauto. Qed.

Lemma typeMap_Root : typeMap schema !! "RootQueryType" = Some RootQueryType.
Proof using Hside. apply (query_side_declares schema RootQueryType Hside). cbn. tauto. Qed.

Lemma nest_valid (n : nat) :
  check_selection scalar_accepts schema "User" (Sample.nest n) = [].
Proof using Hside.
  induction n as [|n IH].
  - cbn [Sample.nest Sample.leaf check_selection]. unfold lookup_field.
    rewrite typeMap_User. cbn. rewrite typeMap_UUID. reflexivity.
  - cbn [Sample.nest Sample.node check_selection]. unfold lookup_field.
    rewrite typeMap_User. cbn. rewrite typeMap_User. cbn.
    rewrite IH. reflexivity.
Qed.

Lemma deep_valid (n : nat) :
  validate schema (body_query (Sample.deep n)) (specifiedRules scalar_accepts) = [].
Proof using Hside.
  unfold validate, specifiedRules, structural, root_type. cbn.
  rewrite (proj1 Hside). unfold lookup_field. rewrite typeMap_Root. cbn.
  rewrite typeMap_User. cbn. rewrite nest_valid. reflexivity.
Qed.
End DeepQueries.

Lemma nest_depth (n : nat) : selection_depth (Sample.nest n) = n.
Proof.
  induction n as [|n IH]; [reflexivity|].
  cbn. rewrite IH, Nat.max_0_r. reflexivity.
Qed.

Lemma deep_depth (n : nat) : document_depth (body_query (Sample.deep n)) = S n.
Proof.
  unfold document_depth. cbn. rewrite nest_depth, !Nat.max_0_r. reflexivity.
Qed.

Lemma execute_has_data {W : Type} (prisma : client W)
    (serialize : type_def → value → settled value) (schema : GraphQLSchema)
    (vars : list (string * value)) (doc : document) (w : W) :
  is_Some (data (execute prisma serialize schema vars doc w).1.1).
Proof.
  unfold execute. destruct (root_type schema (operation doc)); [|cbn; eauto].
  destruct (exec_object _ _ _ _ _ _) as [[v|e] st]; cbn; eauto.
Qed.

(** X11: the cycle from [User] to [User] through [userSubscribedTo] makes
    the schema accept queries of every depth: for each [n] there is a
    document of depth [n + 1] that passes structural validation in both
    schema files.  The handler without the depth pass executes it, however
    deep; the handler with the depth pass answers it with one error and no
    data as soon as its depth exceeds 5. *)
Theorem valid_queries_of_every_depth (n : nat) :
  ∃ doc,
    document_depth doc = S n ∧
    ∀ schema scalar_accepts,
      In schema schema_files →
      validate schema doc (specifiedRules scalar_accepts) = [] ∧
      ∀ (W Source : Type) (prisma : client W)
        (parse : Source → settled document)
        (serialize : type_def → value → settled value)
        (req : request Source) (w : W),
        parse (body_query req) = inr doc →
        (∃ r, (Index.handler prisma parse scalar_accepts serialize schema req w).1.1
              = inr r ∧ is_Some (data r)) ∧
        (5 ≤ n →
         ∃ e, DepthLimited.handler prisma parse scalar_accepts serialize schema
                req w
              = (inr {| data := None; errors := [e] |}, w, [])).
Proof.
  exists (body_query (Sample.deep n)). split; [apply deep_depth|].
  intros schema scalar_accepts Hschema.
  pose proof (deep_valid scalar_accepts schema
                (schema_files_query_side schema Hschema) n) as Hvalid.
  split; [exact Hvalid|].
  intros W Source prisma parse serialize req w Hparse. split.
  - unfold Index.handler, call_graphql, graphql. rewrite Hparse, Hvalid.
    pose proof (execute_has_data prisma serialize schema (body_variables req)
                  (body_query (Sample.deep n)) w) as Hdata.
    destruct (execute _ _ _ _ _ _) as [[r w1] evs]. exists r.
    split; [reflexivity | exact Hdata].
  - intros Hn. eexists.
    rewrite (limited_rejects _ _ _ _ _ _ _ _ Hparse);
      rewrite depth_pass_verdict, deep_depth; unfold DepthLimited.limit;
      destruct (decide _); try lia; [reflexivity | discriminate].
Qed.

Lemma valid_queries_of_every_depth_witness :
  ∃ doc,
    document_depth doc = 8 ∧
    validate createGraphQLSchema doc (specifiedRules Memory.scalar_accepts) = [] ∧
    ∃ e, DepthLimited.handler Memory.prisma Memory.parse Memory.scalar_accepts
           Memory.serialize createGraphQLSchema
           {| body_query := doc; body_variables := [] |} Sample.db
         = (inr {| data := None; errors := [e] |}, Sample.db, []).
Proof.
  destruct (valid_queries_of_every_depth 7) as (doc & Hdepth & H).
  exists doc. split; [exact Hdepth|].
  destruct (H createGraphQLSchema Memory.scalar_accepts (or_introl eq_refl))
    as [Hvalid Hrun].
  split; [exact Hvalid|].
  refine (proj2 (Hrun Memory.store document Memory.prisma Memory.parse
                   Memory.serialize {| body_query := doc; body_variables := [] |}
                   Sample.db eq_refl) _).
  lia.
Defined.

(* ===================================================================== *)
(** ** A failing mutation field *)
(* ===================================================================== *)

Lemma mutation_fields_nonNull (name : string) (fd : field_def) :
  assoc name (fields_of Mutations) = Some fd → is_nonNull (type fd) = true.
Proof.
  intros H. apply assoc_In in H. field_cases H; reflexivity.
Qed.

(** X12: every field of the mutation root is declared non-null, so one
    failing mutation field takes the whole payload with it: the response
    has [data: null] and the field's error, although the mutation fields
    selected before it have run and the store keeps what they wrote; the
    fields selected after it are never started. *)
Theorem failed_mutation_nulls_payload {W : Type} (prisma : client W)
    (serialize : type_def → value → settled value)
    (vars : list (string * value)) (w w1 : W)
    (before after : list selection) (alias : option string) (name : string)
    (arguments : list (string * arg_value)) (subs : list selection)
    (fd : field_def) (a : value) (thrown : js_thrown)
    (calls : list prisma_call) (entries : list (string * value))
    (st : exec_state W) :
  let here := [Key (default name alias)] in
  exec_fields (exec_field prisma serialize createGraphQLSchema vars)
    before "Mutations" VUndefined [] (initial w) = (Done entries, st) →
  assoc name (fields_of Mutations) = Some fd →
  argument_values vars name (args fd) arguments = inr a →
  run prisma (resolver_of name fd VUndefined a) (world st) = (inl thrown, w1, calls) →
  execute prisma serialize createGraphQLSchema vars
    {| operation := OpMutation;
       selections := before ++ Field alias name arguments subs :: after |} w
  = ({| data := Some VNull;
        errors := failures st ++ [field_error (message thrown) here] |},
     w1,
     trace st ++ Started here :: (Called here <$> calls) ++ [Settled here]).
Proof.
  intros here Hbefore Hfd Hargs Hrun.
  unfold execute. cbn [operation selections].
  change (root_type createGraphQLSchema OpMutation) with (Some "Mutations").
  unfold exec_object. rewrite exec_fields_app, Hbefore. cbn [exec_fields].
  erewrite exec_field_throws;
    [|rewrite lookup_mutation_field; exact Hfd|exact Hargs|exact Hrun].
  cbn zeta. rewrite (mutation_fields_nonNull _ _ Hfd). cbn.
  rewrite <- !app_assoc. reflexivity.
Qed.

Lemma failed_mutation_nulls_payload_witness :
  let r := execute Memory.prisma Memory.serialize createGraphQLSchema []
             {| operation := OpMutation;
                selections :=
                  [Sample.subscribe;
                   Field None "deleteUser" [("id", Lit (VStr "u7"))] [];
                   Field None "deletePost" [("id", Lit (VStr "t1"))] []] |}
             Sample.db in
  r.1.1 = {| data := Some VNull;
             errors := [field_error
                          "Failed to delete user: Record to delete does not exist."
                          [Key "deleteUser"]] |} ∧
  r.1.2 Prisma.subscribersOnAuthors
  = [Sample.bob_follows_ann; Sample.bob_follows_ghost;
     VObj [("subscriberId", VStr "u1"); ("authorId", VStr "u2")]] ∧
  r.1.2 Prisma.post = [Sample.ann_post].
Proof.
  intros r.
  eassert (H : execute Memory.prisma Memory.serialize createGraphQLSchema [] _
                 Sample.db = _).
  { eapply (failed_mutation_nulls_payload Memory.prisma Memory.serialize []
              Sample.db) with
      (before := [Sample.subscribe])
      (after := [Field None "deletePost" [("id", Lit (VStr "t1"))] []])
      (alias := @None string) (name := "deleteUser")
      (arguments := [("id", Lit (VStr "u7"))]) (subs := @nil selection).
    - vm_compute. reflexivity.
    - reflexivity.
    - reflexivity.
    - vm_compute. reflexivity. }
  split; [exact (f_equal (λ x, x.1.1) H)|].
  split; [exact (f_equal (λ x, x.1.2 Prisma.subscribersOnAuthors) H)|].
  exact (f_equal (λ x, x.1.2 Prisma.post) H).
Defined.

(* ===================================================================== *)
(** ** The query side of a schema *)
(* ===================================================================== *)

Lemma lookup_field_query_side (schema : GraphQLSchema) (T : type_def)
    (name : string) :
  query_side schema → In T (scalars ++ output_types) →
  lookup_field schema (type_name T) name = assoc name (fields_of T).
Proof.
  intros Hside HT. unfold lookup_field.
  rewrite (query_side_declares schema T Hside HT).
  destruct T; reflexivity.
Qed.

(** The fields of the query-side types refer to query-side types. *)
Lemma query_side_closed (T : type_def) (name : string) (fd : field_def) :
  In T (scalars ++ output_types) →
  In (name, fd) (fields_of T) →
  ∃ T', In T' (scalars ++ output_types) ∧ named_type (type fd) = type_name T'.
Proof.
  intros HT HIn.
  assert (H : named_type (type fd) ∈ type_name <$> (scalars ++ output_types)).
  { type_cases HT; try (cbn in HIn; contradiction);
      field_cases HIn; apply list_elem_of_In; cbn; tauto. }
  apply list_elem_of_fmap_1 in H as (T' & Heq & HT').
  exists T'. split; [apply list_elem_of_In; exact HT' | exact Heq].
Qed.

(** Their resolvers, the default one included, only read. *)
Lemma query_side_resolver_reads (T : type_def) (name : string) (fd : field_def) :
  In T (scalars ++ output_types) →
  In (name, fd) (fields_of T) →
  ∀ (W : Type) (prisma : client W) (parent a : value) (w : W),
    Forall (λ c, is_read c = true)
           (run prisma (resolver_of name fd parent a) w).2.
Proof.
  intros HT HIn.
  type_cases HT; try (cbn in HIn; contradiction);
    field_cases HIn; intros W prisma parent a w;
    try (cbn; constructor; fail);
    try apply subscription_resolver_reads;
    by_answer prisma w; repeat constructor.
Qed.

Lemma run_steady {W A : Type} (prisma : client W) (p : Prog A) (w : W) :
  steady prisma →
  Forall (λ c, is_read c = true) (run prisma p w).2 →
  (run prisma p w).1.2 = w.
Proof.
  intros Hsteady. revert w.
  induction p as [x|e|c k IH]; intros w Hreads; [reflexivity..|].
  cbn [run] in *. pose proof (Hsteady c w) as Hc.
  destruct (prisma c w) as [r w1]. specialize (IH r w1).
  destruct (run prisma (k r) w1) as [[res w2] cs]. cbn in *.
  apply Forall_cons in Hreads as [Hread Hrest].
  rewrite (IH Hrest). exact (Hc Hread).
Qed.

Section ReadsOn.
Context {W : Type}.
Variable prisma : client W.
Variable serialize : type_def → value → settled value.
Variable schema : GraphQLSchema.
Variable vars : list (string * value).
Hypothesis Hside : query_side schema.
Implicit Types (st : exec_state W) (p q : list segment).

Lemma reads_refl st : reads_on prisma st st.
Proof.
  split; [|reflexivity].
  exists []. split; [symmetry; apply app_nil_r | constructor].
Qed.

Lemma reads_trans st st1 st2 :
  reads_on prisma st st1 → reads_on prisma st1 st2 → reads_on prisma st st2.
Proof.
  intros [(evs1 & H1 & F1) W1] [(evs2 & H2 & F2) W2]. split.
  - exists (evs1 ++ evs2). split.
    + rewrite H2, H1, app_assoc. reflexivity.
    + apply Forall_app. split; assumption.
  - intros Hs. rewrite (W2 Hs). exact (W1 Hs).
Qed.

Lemma reads_absorb st t (r : completion value * exec_state W) :
  reads_on prisma st r.2 → reads_on prisma st (absorb t r).2.
Proof.
  destruct r as [[v|e] st']; cbn; [tauto|].
  destruct (is_nonNull t); cbn; [tauto|].
  intros H. eapply reads_trans; [exact H|].
  split; [|reflexivity].
  exists []. split; [cbn; symmetry; apply app_nil_r | constructor].
Qed.

Lemma reads_items f items i p st :
  (∀ item q s, reads_on prisma s (f item q s).2) →
  reads_on prisma st (complete_items f items i p st).2.
Proof.
  intros Hf. revert i st. induction items as [|item rest IH]; intros i st.
  - apply reads_refl.
  - cbn [complete_items].
    pose proof (Hf item (p ++ [Index i]) st) as H1.
    destruct (f item (p ++ [Index i]) st) as [[v|e] st1]; [|exact H1].
    specialize (IH (S i) st1).
    destruct (complete_items f rest (S i) p st1) as [[vs|e] st2];
      exact (reads_trans _ _ _ H1 IH).
Qed.

Lemma reads_complete rs t v p st :
  (∀ v q s, reads_on prisma s (rs (named_type t) v q s).2) →
  reads_on prisma st (complete serialize schema rs t v p st).2.
Proof.
  revert v p st.
  induction t as [n|t IH|t IH]; intros v p st Hrs; cbn [complete].
  - destruct (is_absent v); [apply reads_refl|].
    destruct (typeMap schema !! n) as [[| | |]|];
      try (destruct (serialize _ v); apply reads_refl);
      [apply Hrs | apply reads_refl].
  - destruct (is_absent v); [apply reads_refl|].
    destruct v; try apply reads_refl.
    match goal with
    | |- context [complete_items ?f ?l 0 p st] =>
        assert (H : reads_on prisma st (complete_items f l 0 p st).2);
        [|destruct (complete_items f l 0 p st) as [[vs|e] st1]; exact H]
    end.
    apply reads_items. intros item q s. apply reads_absorb, IH, Hrs.
  - specialize (IH v p st Hrs).
    destruct (complete serialize schema rs t v p st) as [[r|e] st1]; [|exact IH].
    destruct (is_absent r); exact IH.
Qed.

Lemma reads_fields f sels T parent p st :
  Forall (λ s, ∀ parent p st, reads_on prisma st (f s T parent p st).2) sels →
  reads_on prisma st (exec_fields f sels T parent p st).2.
Proof.
  intros Hall. revert st. induction Hall as [|s rest Hs _ IH]; intros st.
  - apply reads_refl.
  - cbn [exec_fields]. pose proof (Hs parent p st) as H1.
    destruct (f s T parent p st) as [[v|e] st1]; [|exact H1].
    specialize (IH st1).
    destruct (exec_fields f rest T parent p st1) as [[kvs|e] st2];
      exact (reads_trans _ _ _ H1 IH).
Qed.

(** Running a field of a query-side type only reads. *)
Lemma exec_field_reads s T parent p st :
  In T (scalars ++ output_types) →
  reads_on prisma st
    (exec_field prisma serialize schema vars s (type_name T) parent p st).2.
Proof using Hside.
  revert T parent p st.
  induction s as [alias name arguments subs IH] using selection_tree_ind.
  intros T parent p st HT. cbn [exec_field].
  rewrite (lookup_field_query_side schema T name Hside HT).
  destruct (assoc name (fields_of T)) as [fd|] eqn:Hfd; [|apply reads_refl].
  apply assoc_In in Hfd. cbn [snd fst].
  set (here := p ++ [Key (default name alias)]).
  eapply reads_trans;
    [|split; [exists [Settled here]; split; [reflexivity | repeat constructor]
             | reflexivity]].
  apply reads_absorb. unfold resolve_and_complete.
  destruct (argument_values vars name (args fd) arguments) as [e|a];
    [apply reads_refl|].
  cbn [world record_events].
  pose proof (query_side_resolver_reads T name fd HT Hfd W prisma parent a
                (world st)) as Hreads.
  pose proof (run_steady prisma (resolver_of name fd parent a) (world st))
    as Hworld.
  destruct (run prisma (resolver_of name fd parent a) (world st))
    as [[r w] calls]. cbn [fst snd] in *.
  assert (H1 : reads_on prisma st (resolved_state here w calls st)).
  { split.
    - exists (Started here :: (Called here <$> calls)). split.
      + cbn. rewrite <- app_assoc. reflexivity.
      + constructor; [exact I|].
        apply Forall_fmap. eapply Forall_impl; [exact Hreads|].
        intros c Hc. exact Hc.
    - intros Hs. cbn. exact (Hworld Hs Hreads). }
  destruct r as [e|v]; [exact H1|].
  eapply reads_trans; [exact H1|].
  apply reads_complete. intros v' q s.
  destruct (query_side_closed T name fd HT Hfd) as (T' & HT' & ->).
  unfold exec_object.
  assert (H2 : reads_on prisma s
                 (exec_fields (exec_field prisma serialize schema vars)
                    subs (type_name T') v' q s).2).
  { apply reads_fields. eapply Forall_impl; [exact IH|].
    intros sub Hsub parent' p' st'. apply Hsub. exact HT'. }
  destruct (exec_fields _ subs (type_name T') v' q s) as [[kvs|e] s2]; exact H2.
Qed.

Lemma execute_query_reads (doc : document) (w : W) :
  operation doc = OpQuery →
  Forall (calls_only (λ c, is_read c = true))
         (execute prisma serialize schema vars doc w).2 ∧
  (steady prisma → (execute prisma serialize schema vars doc w).1.2 = w).
Proof using Hside.
  intros Hop. unfold execute. rewrite Hop. cbn [root_type].
  rewrite (proj1 Hside). unfold exec_object.
  assert (H : reads_on prisma (initial w)
                (exec_fields (exec_field prisma serialize schema vars)
                   (selections doc) (type_name RootQueryType) VUndefined []
                   (initial w)).2).
  { apply reads_fields, Forall_forall. intros s _ parent p st.
    apply exec_field_reads. cbn. tauto. }
  change (type_name RootQueryType) with "RootQueryType" in H.
  destruct (exec_fields _ (selections doc) "RootQueryType" VUndefined []
              (initial w)) as [[kvs|e] st];
    destruct H as [(evs & Htrace & Hevs) Hworld]; cbn in *;
    subst; split; assumption.
Qed.
End ReadsOn.

Lemma memory_steady : steady Memory.prisma.
Proof.
  intros [m op arg] db Hread. unfold is_read in Hread. cbn in Hread.
  destruct op; try discriminate; reflexivity.
Qed.

(** X13: a request whose operation is a query never writes, in either
    schema file and through either handler: every repository call it leads
    to is a [findMany] or a [findFirst], and with a client whose reads leave
    the store as it is the store after the request is the store before
    it. *)
Theorem queries_never_write {W Source : Type} (prisma : client W)
    (parse : Source → settled document)
    (scalar_accepts : string → value → bool)
    (serialize : type_def → value → settled value) (schema : GraphQLSchema)
    (req : request Source) (w : W) :
  In schema schema_files →
  (∀ doc, parse (body_query req) = inr doc → operation doc = OpQuery) →
  ∀ handler,
    In handler
       [DepthLimited.handler prisma parse scalar_accepts serialize schema;
        Index.handler prisma parse scalar_accepts serialize schema] →
    Forall (calls_only (λ c, is_read c = true)) (handler req w).2 ∧
    (steady prisma → (handler req w).1.2 = w).
Proof.
  intros Hschema Hquery handler Hhandler.
  pose proof (schema_files_query_side schema Hschema) as Hside.
  assert (Hdirect :
            Forall (calls_only (λ c, is_read c = true))
              (Index.handler prisma parse scalar_accepts serialize schema req w).2 ∧
            (steady prisma →
             (Index.handler prisma parse scalar_accepts serialize schema req w).1.2
             = w)).
  { unfold Index.handler, call_graphql, graphql.
    destruct (parse (body_query req)) as [e|doc] eqn:Hparse;
      [split; [constructor | reflexivity]|].
    destruct (validate schema doc (specifiedRules scalar_accepts));
      [|split; [constructor | reflexivity]].
    pose proof (execute_query_reads prisma serialize schema (body_variables req)
                  Hside doc w (Hquery doc eq_refl)) as H.
    destruct (execute _ _ _ _ _ _) as [[r w1] evs]. exact H. }
  cbn in Hhandler. destruct Hhandler as [<-|[<-|[]]]; [|exact Hdirect].
  unfold DepthLimited.handler.
  destruct (parse (body_query req)) as [e|doc] eqn:Hparse;
    [split; [constructor | reflexivity]|].
  cbn zeta. destruct (bool_decide _); [split; [constructor | reflexivity]|].
  unfold Index.handler in Hdirect. exact Hdirect.
Qed.

Lemma queries_never_write_witness :
  (DepthLimited.handler Memory.prisma Memory.parse Memory.scalar_accepts
     Memory.serialize createGraphQLSchema Sample.users_with_posts Sample.db).1.2
  = Sample.db.
Proof.
  refine (proj2 (queries_never_write Memory.prisma Memory.parse
                   Memory.scalar_accepts Memory.serialize createGraphQLSchema
                   Sample.users_with_posts Sample.db (or_introl eq_refl) _
                   _ (or_introl eq_refl)) memory_steady).
  intros doc [= <-]. reflexivity.
Defined.

(* ===================================================================== *)
(** ** The two schema files on queries *)
(* ===================================================================== *)


Section TwoSchemas.
Context {W : Type}.
Variable prisma : client W.
Variable serialize : type_def → value → settled value.
Variable scalar_accepts : string → value → bool.
Variable vars : list (string * value).
Variables s1 s2 : GraphQLSchema.
Hypothesis Hside1 : query_side s1.
Hypothesis Hside2 : query_side s2.
Implicit Types (st : exec_state W) (p q : list segment).








End TwoSchemas.



(* ===================================================================== *)
(** ** The schema file without a mutation root *)
(* ===================================================================== *)

Lemma call_graphql_query_reads {W Source : Type} (prisma : client W)
    (parse : Source → settled document)
    (scalar_accepts : string → value → bool)
    (serialize : type_def → value → settled value) (schema : GraphQLSchema)
    (req : request Source) (w : W) :
  query_side schema →
  (∀ doc, parse (body_query req) = inr doc → operation doc = OpQuery) →
  Forall (calls_only (λ c, is_read c = true))
         (call_graphql prisma parse scalar_accepts serialize schema req w).2 ∧
  (steady prisma →
   (call_graphql prisma parse scalar_accepts serialize schema req w).1.2 = w).
Proof.
  intros Hside Hquery. unfold call_graphql, graphql.
  destruct (parse (body_query req)) as [e|doc] eqn:Hparse;
    [split; [constructor | reflexivity]|].
  destruct (validate schema doc (specifiedRules scalar_accepts));
    [|split; [constructor | reflexivity]].
  pose proof (execute_query_reads prisma serialize schema (body_variables req)
                Hside doc w (Hquery doc eq_refl)) as H.
  destruct (execute _ _ _ _ _ _) as [[r w1] evs]. exact H.
Qed.

(** Without a mutation root a mutation is answered before any resolver
    runs. *)
Lemma call_graphql_without_mutation_root {W Source : Type} (prisma : client W)
    (parse : Source → settled document)
    (scalar_accepts : string → value → bool)
    (serialize : type_def → value → settled value) (schema : GraphQLSchema)
    (req : request Source) (w : W) (doc : document) :
  mutation schema = None →
  parse (body_query req) = inr doc →
  operation doc = OpMutation →
  ∃ r, errors r ≠ [] ∧
       call_graphql prisma parse scalar_accepts serialize schema req w
       = (inr r, w, []).
Proof.
  intros Hroot Hparse Hop. unfold call_graphql, graphql. rewrite Hparse.
  unfold validate, specifiedRules, structural. cbn [mbind list_bind].
  rewrite Hop. cbn [root_type]. rewrite Hroot. cbn.
  eexists. split; [|reflexivity]. discriminate.
Qed.

(** X15: with the schema file that declares no mutation root, no request
    writes, whatever its operation, through either handler: every
    repository call a request leads to is a [findMany] or a [findFirst],
    a client whose reads leave the store as it is keeps its store, and a
    mutation operation is answered with errors before any resolver has
    started. *)
Theorem query_only_schema_never_writes {W Source : Type} (prisma : client W)
    (parse : Source → settled document)
    (scalar_accepts : string → value → bool)
    (serialize : type_def → value → settled value)
    (req : request Source) (w : W) :
  ∀ handler,
    In handler
       [DepthLimited.handler prisma parse scalar_accepts serialize
          QueryOnly.createGraphQLSchema;
        Index.handler prisma parse scalar_accepts serialize
          QueryOnly.createGraphQLSchema] →
    Forall (calls_only (λ c, is_read c = true)) (handler req w).2 ∧
    (steady prisma → (handler req w).1.2 = w) ∧
    (∀ doc, parse (body_query req) = inr doc → operation doc = OpMutation →
       ∃ r, errors r ≠ [] ∧ handler req w = (inr r, w, [])).
Proof.
  intros handler Hhandler.
  assert (Hside : query_side QueryOnly.createGraphQLSchema)
    by (apply schema_files_query_side; cbn; tauto).
  assert (Hdirect :
            Forall (calls_only (λ c, is_read c = true))
              (call_graphql prisma parse scalar_accepts serialize
                 QueryOnly.createGraphQLSchema req w).2 ∧
            (steady prisma →
             (call_graphql prisma parse scalar_accepts serialize
                QueryOnly.createGraphQLSchema req w).1.2 = w) ∧
            (∀ doc, parse (body_query req) = inr doc →
               operation doc = OpMutation →
               ∃ r, errors r ≠ [] ∧
                    call_graphql prisma parse scalar_accepts serialize
                      QueryOnly.createGraphQLSchema req w = (inr r, w, []))).
  { assert (Hmut : ∀ doc, parse (body_query req) = inr doc →
               operation doc = OpMutation →
               ∃ r, errors r ≠ [] ∧
                    call_graphql prisma parse scalar_accepts serialize
                      QueryOnly.createGraphQLSchema req w = (inr r, w, [])).
    { intros doc Hparse Hop.
      exact (call_graphql_without_mutation_root prisma parse scalar_accepts
               serialize QueryOnly.createGraphQLSchema req w doc eq_refl
               Hparse Hop). }
    destruct (parse (body_query req)) as [e|doc] eqn:Hparse.
    - destruct (call_graphql_query_reads prisma parse scalar_accepts serialize
                  QueryOnly.createGraphQLSchema req w Hside) as [H1 H2].
      + intros doc Hdoc. congruence.
      + repeat split; assumption.
    - destruct (operation doc) eqn:Hop.
      + destruct (call_graphql_query_reads prisma parse scalar_accepts
                    serialize QueryOnly.createGraphQLSchema req w Hside)
          as [H1 H2].
        * intros doc' Hdoc. congruence.
        * repeat split; assumption.
      + destruct (Hmut doc eq_refl Hop) as (r & Hr & Heq).
        rewrite Heq. split; [constructor|]. split; [reflexivity|].
        intros doc' Hdoc' _. exists r. split; [exact Hr | reflexivity]. }
  cbn in Hhandler. destruct Hhandler as [<-|[<-|[]]]; [|exact Hdirect].
  unfold DepthLimited.handler.
  destruct (parse (body_query req)) as [e|doc] eqn:Hparse;
    [split; [constructor|split; [reflexivity|intros ? [=]]]|].
  cbn zeta. destruct (bool_decide _) eqn:Hdepth; [|exact Hdirect].
  split; [constructor|]. split; [reflexivity|].
  intros doc' _ _. eexists. split; [|reflexivity]. cbn [errors].
  apply bool_decide_eq_true in Hdepth. intros Hnil. apply Hdepth.
  rewrite Hnil. reflexivity.
Qed.

Lemma query_only_schema_never_writes_witness :
  ∃ r, errors r ≠ [] ∧
       Index.handler Memory.prisma Memory.parse Memory.scalar_accepts
         Memory.serialize QueryOnly.createGraphQLSchema
         (Sample.ask OpMutation [Sample.node "createUser" [Sample.leaf "id"]])
         Sample.db
       = (inr r, Sample.db, []).
Proof.
  refine (proj2 (proj2 (query_only_schema_never_writes Memory.prisma
                          Memory.parse Memory.scalar_accepts Memory.serialize
                          (Sample.ask OpMutation
                             [Sample.node "createUser" [Sample.leaf "id"]])
                          Sample.db _ (or_intror (or_introl eq_refl))))
            _ eq_refl eq_refl).
Defined.

(* ===================================================================== *)
(** ** Syntax errors *)
(* ===================================================================== *)



(* ===================================================================== *)
(** ** Required arguments *)
(* ===================================================================== *)




